(** * ren-table.js: the typed table element and its change-propagation engine

    A shallow embedding of [src/ren-table.js]: the table controller
    ([RenTableElement]), the header cell ([RenHeaderElement]) and the body
    cell ([RenCellElement]).

    Conventions of the embedding.
    - DOM attributes are [option string]: [None] is the [null] that
      [getAttribute] returns for an absent attribute.
    - The three static registries ([renderers], [exporters], [importers]) are
      object literals: a finite map holds their own properties, and a lookup
      that finds no own property goes on to the members of
      [Object.prototype], as [registry[name]] does.
    - A handler that is registered is a function, and it returns.
    - Code that can raise a [TypeError] returns a [result].
    - [setTimeout] is modelled by an explicit list of pending callbacks.
    - Indices are natural numbers; the bounds of a dirty region are natural
      numbers or [+Infinity]. Numbers are integers that JavaScript holds
      exactly (below 2^53, decimal concatenations included); the two
      floating-point results of the progress handlers are kept as their
      operands.
    - Arrays are dense; an object row is given by its own properties and by
      the properties it inherits. An object among the values is known by
      the string that [String] makes of it.
    - The children of the header row are [ren-th] cells, other [th] or [td]
      cells, and elements that are no cells. Body cells are [ren-td]
      elements. *)

From Stdlib Require Import DecimalString DecimalNat ZArith.
From stdpp Require Import gmap strings list sorting.

Open Scope string_scope.
Open Scope nat_scope.
Open Scope list_scope.

(* ===================================================================== *)
(** * Part I: the embedding                                               *)
(* ===================================================================== *)

(** ** Numbers used as region bounds *)

(** A region bound: a non-negative integer or [Number.POSITIVE_INFINITY]. *)
Inductive num : Type :=
  | Fin (n : nat)
  | PosInf.

Definition num_eqb (a b : num) : bool :=
  match a, b with
  | Fin x, Fin y => Nat.eqb x y
  | PosInf, PosInf => true
  | _, _ => false
  end.

(** [a <= b] on bounds. *)
Definition num_leb (a b : num) : bool :=
  match a, b with
  | Fin x, Fin y => Nat.leb x y
  | _, PosInf => true
  | PosInf, Fin _ => false
  end.

(** [a < b] on bounds. *)
Definition num_ltb (a b : num) : bool :=
  match a, b with
  | Fin x, Fin y => Nat.ltb x y
  | Fin _, PosInf => true
  | PosInf, _ => false
  end.

(** [Math.min]. *)
Definition num_min (a b : num) : num :=
  match a, b with
  | Fin x, Fin y => Fin (Nat.min x y)
  | Fin x, PosInf => Fin x
  | PosInf, b => b
  end.

(** [String(n)] for a bound. *)
Definition js_String (a : num) : string :=
  match a with
  | Fin n => NilZero.string_of_uint (Nat.to_uint n)
  | PosInf => "Infinity"
  end.

(** [Number(s)] on the strings that [update] builds: a run of decimal digits
    is its value, anything else (such as ["0Infinity"]) is [NaN], here
    [None]. *)
Definition js_Number (s : string) : option nat :=
  match NilZero.uint_of_string s with
  | Some d => Some (Nat.of_uint d)
  | None => None
  end.

(** [a > b] on numbers that may be [NaN]: false as soon as one side is
    [NaN]. *)
Definition nan_gtb (a b : option nat) : bool :=
  match a, b with
  | Some x, Some y => Nat.ltb y x
  | _, _ => false
  end.

(** ** Dirty regions and the update queue *)

Record region : Type := mk_region {
  row_start : num;
  column_start : num;
  row_end : num;
  column_end : num
}.

(** [Number(String(row_start) + String(column_start))]. *)
Definition weight (rs cs : num) : option nat :=
  js_Number (js_String rs +:+ js_String cs).

Definition region_weight (r : region) : option nat :=
  weight (row_start r) (column_start r).

(** The loop of [update]: the entry is spliced in before the first queued
    region whose weight is greater, and pushed at the end when there is
    none. *)
Fixpoint insert_entry (w : option nat) (entry : region) (q : list region)
  : list region :=
  match q with
  | [] => [entry]
  | cur :: rest =>
      if nan_gtb (region_weight cur) w
      then entry :: cur :: rest
      else cur :: insert_entry w entry rest
  end.

(** The scheduling state of a table: the queue, the handle of the pending
    pass, and the callbacks that [setTimeout] has queued for [_update]
    (each timer is named by the identifier [setTimeout] returned). *)
Record scheduler : Type := mk_scheduler {
  update_regions : list region;
  update_handle : option nat;
  pending_passes : list nat;
  next_timer : nat
}.

(** The state the constructor leaves. *)
Definition new_scheduler : scheduler :=
  {| update_regions := []; update_handle := None;
     pending_passes := []; next_timer := 1 |}.

(** [this.update_handle ??= setTimeout(this._update.bind(this), 0)]. *)
Definition schedule_pass (s : scheduler) : scheduler :=
  match update_handle s with
  | Some _ => s
  | None =>
      {| update_regions := update_regions s;
         update_handle := Some (next_timer s);
         pending_passes := pending_passes s ++ [next_timer s];
         next_timer := S (next_timer s) |}
  end.

(** [update(row_start, column_start, row_end, column_end)]. *)
Definition update (rs cs re ce : num) (s : scheduler) : scheduler :=
  let w := weight rs cs in
  let entry := mk_region rs cs re ce in
  schedule_pass
    {| update_regions := insert_entry w entry (update_regions s);
       update_handle := update_handle s;
       pending_passes := pending_passes s;
       next_timer := next_timer s |}.

(** [update] with the defaults of its parameters; [None] is an argument that
    is left out. *)
Definition update_default (rs cs : option num) (re ce : option num)
  (s : scheduler) : scheduler :=
  update (default (Fin 0) rs) (default (Fin 0) cs)
         (default PosInf re) (default PosInf ce) s.

Definition update_region (r : region) (s : scheduler) : scheduler :=
  update (row_start r) (column_start r) (row_end r) (column_end r) s.

(** A run of [update] calls, oldest first. *)
Definition updates (calls : list region) (s : scheduler) : scheduler :=
  fold_left (fun acc r => update_region r acc) calls s.

(** ** The deferred render pass *)

(** "remove passed regions": regions are shifted off the head of the queue
    while the head's [row_end] is at or before the current row. *)
Fixpoint drop_passed (row_idx : nat) (q : list region) : list region :=
  match q with
  | [] => []
  | r :: rest =>
      if num_leb (row_end r) (Fin row_idx)
      then drop_passed row_idx rest
      else q
  end.

(** The innermost loop: the regions are tried in queue order; the scan stops
    without a match at the first region whose [row_start] lies after the
    current row, and stops with a match at the first region whose column
    span holds the cell. *)
Fixpoint cell_matches (row_idx cell_idx : nat) (q : list region) : bool :=
  match q with
  | [] => false
  | r :: rest =>
      if num_ltb (Fin row_idx) (row_start r) then false
      else if num_leb (column_start r) (Fin cell_idx)
              && num_ltb (Fin cell_idx) (column_end r)
      then true
      else cell_matches row_idx cell_idx rest
  end.

(** The loop over the cells of one row, from [cell_idx] on: the positions of
    the cells whose [update()] is called, in call order. *)
Fixpoint scan_cells (row_idx cell_idx n_cells : nat) (q : list region)
  : list (nat * nat) :=
  match n_cells with
  | O => []
  | S k =>
      (if cell_matches row_idx cell_idx q then [(row_idx, cell_idx)] else [])
      ++ scan_cells row_idx (S cell_idx) k q
  end.

(** The loop over the flattened rows, from [row_idx] on; only the number of
    cells of a row matters here ([cells.length]). The result is the trace of
    the [update()] calls made on cells, each cell named by its (flattened
    row, column) position, in call order. *)
Fixpoint scan_rows {A : Type} (row_idx : nat) (rows : list (list A))
  (q : list region) : list (nat * nat) :=
  match rows with
  | [] => []
  | cells :: rest =>
      match drop_passed row_idx q with
      | [] => []
      | head :: tl =>
          if num_ltb (Fin row_idx) (row_start head)
          then scan_rows (S row_idx) rest (head :: tl)
          else scan_cells row_idx 0 (length cells) (head :: tl)
               ++ scan_rows (S row_idx) rest (head :: tl)
      end
  end.

(** The queue as the sweep leaves it when its loop exits, before the final
    assignment of [_update]. *)
Fixpoint remaining_regions {A : Type} (row_idx : nat) (rows : list (list A))
  (q : list region) : list region :=
  match rows with
  | [] => q
  | _ :: rest =>
      match drop_passed row_idx q with
      | [] => []
      | head :: tl => remaining_regions (S row_idx) rest (head :: tl)
      end
  end.

(** [_update()] of the table on the flattened rows of its bodies: the handle
    is reset, the rows are swept, and the queue is replaced by an empty
    one. *)
Definition table_update {A : Type} (rows : list (list A)) (s : scheduler)
  : scheduler * list (nat * nat) :=
  ({| update_regions := [];
      update_handle := None;
      pending_passes := pending_passes s;
      next_timer := next_timer s |},
   scan_rows 0 rows (update_regions s)).

(** The event loop fires the oldest pending pass. *)
Definition fire_pass {A : Type} (rows : list (list A)) (s : scheduler)
  : scheduler * list (nat * nat) :=
  table_update rows
    {| update_regions := update_regions s;
       update_handle := update_handle s;
       pending_passes := tail (pending_passes s);
       next_timer := next_timer s |}.

(** ** Histories of a table's scheduler *)

(** What happens to the scheduler: a call of [update], or the event loop
    reaching the timer of a pending pass, with the flattened rows of the
    table at that time. *)
Inductive event (A : Type) : Type :=
  | Call (r : region)
  | Timeout (rows : list (list A)).
Arguments Call {A} r.
Arguments Timeout {A} rows.

(** A timer fires only if it is pending. *)
Definition step {A : Type} (s : scheduler) (e : event A) : scheduler :=
  match e with
  | Call r => update_region r s
  | Timeout rows =>
      match pending_passes s with
      | [] => s
      | _ :: _ => fst (fire_pass rows s)
      end
  end.

(** The scheduler of a table after a history, oldest event first. *)
Definition run {A : Type} (history : list (event A)) : scheduler :=
  fold_left step history new_scheduler.

(** [update()] of a body cell, [this.update_handle ??= setTimeout(...)]. The
    handles of the cells are kept in one store: the positions of the cells
    whose handle holds a timer, one entry per timer, oldest first. *)
Definition cell_update (pos : nat * nat) (pending : list (nat * nat))
  : list (nat * nat) :=
  if bool_decide (pos ∈ pending) then pending else pending ++ [pos].

(** The effect of a trace of [update()] calls on the store. *)
Definition cell_updates (trace pending : list (nat * nat))
  : list (nat * nat) :=
  fold_left (fun acc pos => cell_update pos acc) trace pending.

(** ** JavaScript values and results *)

(** The values a row of imported data holds: the primitive values, and
    objects and functions, of which only the string [String(v)] matters
    here. *)
Inductive jsval : Type :=
  | JUndefined
  | JNull
  | JBool (b : bool)
  | JNum (z : Z)
  | JStr (s : string)
  | JObject (text : string).

(** Truthiness, as [if (v)], [v ? a : b] and [!!v] test it. *)
Definition truthy (v : jsval) : bool :=
  match v with
  | JUndefined | JNull => false
  | JBool b => b
  | JNum z => negb (Z.eqb z 0)
  | JStr s => negb (String.eqb s "")
  | JObject _ => true
  end.

(** [String(v)], which is also what [setAttribute] stores. *)
Definition to_String (v : jsval) : string :=
  match v with
  | JUndefined => "undefined"
  | JNull => "null"
  | JBool true => "true"
  | JBool false => "false"
  | JNum z => NilZero.string_of_int (Z.to_int z)
  | JStr s => s
  | JObject text => text
  end.

(** [v ?? d]. *)
Definition nullish_or (v d : jsval) : jsval :=
  match v with
  | JUndefined | JNull => d
  | _ => v
  end.

(** [Object(v)]: an empty object for [undefined] and [null], the wrapper
    object of a primitive value, and an object itself. *)
Definition js_Object (v : jsval) : jsval :=
  match v with
  | JUndefined | JNull => JObject "[object Object]"
  | JObject text => JObject text
  | _ => JObject (to_String v)
  end.

(** The outcome of code that may throw a [TypeError]: by dereferencing
    [null] or [undefined], or by calling what cannot be called that way. *)
Inductive result (A : Type) : Type :=
  | Ok (a : A)
  | TypeError.
Arguments Ok {A} a.
Arguments TypeError {A}.

#[global] Instance result_ret : MRet result := λ A a, Ok a.

#[global] Instance result_bind : MBind result :=
  λ A B f r,
    match r with
    | Ok a => f a
    | TypeError => TypeError
    end.

(** A loop whose body may throw: the first throw ends it. *)
Fixpoint traverse {A B : Type} (f : A → result B) (l : list A)
  : result (list B) :=
  match l with
  | [] => Ok []
  | a :: rest =>
      b ← f a;
      bs ← traverse f rest;
      Ok (b :: bs)
  end.

(** A loop over the cells of a row with their index; the first throw ends
    it. *)
Fixpoint itraverse {A B : Type} (f : nat → A → result B) (idx : nat)
  (l : list A) : result (list B) :=
  match l with
  | [] => Ok []
  | a :: rest =>
      b ← f idx a;
      bs ← itraverse f (S idx) rest;
      Ok (b :: bs)
  end.

(** ** The document: header cells, body cells, the table *)

(** What a child element of the header row is: a [ren-th], another cell
    ([th] or [td], which has no [type] and no [name] property), or an
    element that is no cell at all (a [template] or a [script], say), with
    the [type] property it happens to have. *)
Inductive header_kind : Type :=
  | RenHeader
  | PlainCell
  | NotACell (type_property : option string).

(** A child element of the header row, with its attributes. *)
Record th : Type := mk_th {
  th_kind : header_kind;
  th_type_attr : option string;
  th_name_attr : option string;
  th_max_attr : option string
}.

(** The element is in [tr.cells]. *)
Definition is_cell (h : th) : bool :=
  match th_kind h with
  | NotACell _ => false
  | _ => true
  end.

(** The [type] property of the element, [get type()] for a [ren-th];
    [None] is [undefined]. *)
Definition th_type (h : th) : option string :=
  match th_kind h with
  | RenHeader => Some (default "text" (th_type_attr h))
  | PlainCell => None
  | NotACell type_property => type_property
  end.

(** The [name] property of a cell, [get name()] for a [ren-th]; [None] is
    [null] or [undefined]. *)
Definition th_name (h : th) : option string :=
  match th_kind h with
  | RenHeader => th_name_attr h
  | _ => None
  end.

(** The operand [max] of the progress handlers,
    [td.getAttribute('max') ?? td.header?.getAttribute('max') ?? 100]. *)
Inductive max_operand : Type :=
  | MaxAttr (s : string)
  | MaxDefault.

(** What a cell shows. The percentage of a progress cell is kept as the
    operands of [Math.round(100 * value / max)]: the floating-point
    arithmetic is not evaluated. *)
Inductive content : Type :=
  | CText (s : string)
  | CPercent (value : option string) (max : max_operand)
  | CImg (src : string).

(** A body cell: its [value] and [max] attributes and what it shows. *)
Record td : Type := mk_td {
  td_value : option string;
  td_max : option string;
  td_content : content
}.

(** [document.createElement('td', {is: 'ren-td'})], then [td.value = v] when
    a value is given. *)
Definition new_td (v : option string) : td :=
  {| td_value := v; td_max := None; td_content := CText "" |}.

(** [c] after a render that shows [shown]. *)
Definition with_content (c : td) (shown : content) : td :=
  {| td_value := td_value c; td_max := td_max c; td_content := shown |}.

(** The table: its header section (a list of rows, each the list of its
    child elements, when there is one) and its bodies (each a list of
    rows). *)
Record table : Type := mk_table {
  tHead : option (list (list th));
  tBodies : list (list (list td))
}.

(** [get header_row()], [this.tHead.querySelector('tr')]. *)
Definition header_row (t : table) : result (option (list th)) :=
  match tHead t with
  | None => TypeError
  | Some rows => Ok (head rows)
  end.

(** [for (let th of this.header_row.cells)]: the children of the header row
    that are cells. *)
Definition header_cells (t : table) : result (list th) :=
  row ← header_row t;
  match row with
  | None => TypeError
  | Some children => Ok (filter (λ h, is_cell h) children)
  end.

(** [get column_names()]. *)
Definition column_names (t : table) : result (list (option string)) :=
  cells ← header_cells t; Ok (map th_name cells).

(** [get column_types()]. *)
Definition column_types (t : table) : result (list (option string)) :=
  cells ← header_cells t; Ok (map th_type cells).

(** [header(idx)] with a defined [idx], which indexes all the children of
    the header row; [Ok None] is [undefined]. *)
Definition table_header (t : table) (idx : nat) : result (option th) :=
  row ← header_row t;
  match row with
  | None => TypeError
  | Some children => Ok (children !! idx)
  end.

(** [get header()] of a body cell, [this.table?.header(this.index)]; the
    first argument is [this.table]. *)
Definition td_header (t : option table) (idx : nat) : result (option th) :=
  match t with
  | None => Ok None
  | Some t => table_header t idx
  end.

(** [get type()] of a body cell, [this.header.type ?? 'text']. *)
Definition td_type (t : option table) (idx : nat) : result string :=
  h ← td_header t idx;
  match h with
  | None => TypeError
  | Some h => Ok (default "text" (th_type h))
  end.

(** ** The type-handler registries *)

(** What [to_array()] holds for a cell: a string or [null], a boolean, the
    quotient of a progress cell (kept as the operands of
    [Number(td.value) / Number(max)]), or the cell element itself. *)
Inductive exported : Type :=
  | EValue (v : option string)
  | EBool (b : bool)
  | EQuot (value : option string) (max : max_operand)
  | EElement (c : td).

(** A handler receives the cell; the header it can reach through
    [td.header] is passed along. *)
Abbreviation renderer := (td → option th → content).
Abbreviation exporter := (td → option th → exported).
Abbreviation importer := (jsval → jsval).

Definition progress_max (c : td) (h : option th) : max_operand :=
  match td_max c with
  | Some m => MaxAttr m
  | None =>
      match h ≫= th_max_attr with
      | Some m => MaxAttr m
      | None => MaxDefault
      end
  end.

(** [td.value ?? ''] followed by the truth test on the string. *)
Definition value_truthy (v : option string) : bool :=
  negb (String.eqb (default "" v) "").

Definition check_mark : string := "🗸".
Definition cross_mark : string := "🞩".

Definition render_text : renderer :=
  λ c _, CText (default "" (td_value c)).

Definition render_check : renderer :=
  λ c _, CText (if value_truthy (td_value c) then check_mark else cross_mark).

Definition render_progress : renderer :=
  λ c h, CPercent (td_value c) (progress_max c h).

Definition render_img : renderer :=
  λ c _, CImg (default "null" (td_value c)).

(** [static renderers]. *)
Definition renderers : gmap string renderer :=
  <["text" := render_text]> (<["check" := render_check]>
  (<["progress" := render_progress]> (<["img" := render_img]> ∅))).

Definition export_check : exporter :=
  λ c _, EBool (value_truthy (td_value c)).

Definition export_progress : exporter :=
  λ c h, EQuot (td_value c) (progress_max c h).

(** [static exporters]. *)
Definition exporters : gmap string exporter :=
  <["check" := export_check]> (<["progress" := export_progress]> ∅).

Definition import_check : importer :=
  λ v, JStr (if truthy v then "1" else "").

Definition import_progress : importer :=
  λ v, JStr (to_String (nullish_or v (JStr "0"))).

(** [static importers]. *)
Definition importers : gmap string importer :=
  <["check" := import_check]> (<["progress" := import_progress]> ∅).

(** The names of the members of [Object.prototype], which every registry
    inherits. *)
Definition object_prototype_names : list string :=
  ["constructor"; "__defineGetter__"; "__defineSetter__"; "hasOwnProperty";
   "__lookupGetter__"; "__lookupSetter__"; "isPrototypeOf";
   "propertyIsEnumerable"; "toString"; "valueOf"; "__proto__";
   "toLocaleString"].

(** What [registry[name]] finds: an own property, or the member of
    [Object.prototype] of that name. *)
Inductive member (H : Type) : Type :=
  | Own (f : H)
  | Inherited (name : string).
Arguments Own {H} f.
Arguments Inherited {H} name.

(** [registry[name]]; [None] is [undefined]. *)
Definition registry_get {H : Type} (reg : gmap string H) (name : string)
  : option (member H) :=
  match reg !! name with
  | Some f => Some (Own f)
  | None =>
      if bool_decide (name ∈ object_prototype_names)
      then Some (Inherited name)
      else None
  end.

(** A member of [Object.prototype] called as [renderer(td)], with [this]
    undefined: [Object(td)] and [Object.prototype.toString()] return and
    leave the cell alone; the other functions start by converting [this] to
    an object and throw, and [__proto__] is no function. *)
Definition inherited_render (name : string) : result unit :=
  if bool_decide (name ∈ ["constructor"; "toString"]) then Ok ()
  else TypeError.

(** A member of [Object.prototype] called as [importer(v)]. [isPrototypeOf]
    answers [false] for a value that is no object before it looks at
    [this]. *)
Definition inherited_import (name : string) (v : jsval) : result jsval :=
  if decide (name = "constructor") then Ok (js_Object v)
  else if decide (name = "toString") then Ok (JStr "[object Undefined]")
  else if decide (name = "isPrototypeOf") then
    match v with
    | JObject _ => TypeError
    | _ => Ok (JBool false)
    end
  else TypeError.

(** A member of [Object.prototype] called as [exporter(cell)]. *)
Definition inherited_export (name : string) (c : td) : result exported :=
  if decide (name = "constructor") then Ok (EElement c)
  else if decide (name = "toString")
  then Ok (EValue (Some "[object Undefined]"))
  else TypeError.

(** [add_renderer] and its siblings, [registry[name] = f]. For the name
    [__proto__] the assignment does not create a property: it replaces the
    prototype of the registry, which is not followed here; the answer is
    [None] then. *)
Definition add_handler {H : Type} (name : string) (f : H)
  (reg : gmap string H) : option (gmap string H) :=
  if decide (name = "__proto__") then None else Some (<[name := f]> reg).

(** [remove_renderer] and its siblings, [delete registry[name]], which
    removes an own property only. *)
Definition remove_handler {H : Type} (name : string)
  (reg : gmap string H) : gmap string H := delete name reg.

(** The property key that a type stands for in [registry[type]]: the type
    of a column that has no header cell is [undefined]. *)
Definition registry_key (ty : option string) : string :=
  default "undefined" ty.

(** ** Rendering a body cell *)

(** The two arguments of [console.warn]. *)
Definition missing_renderer_warning (ty : string) : string * string :=
  ("could not find renderer for type '" +:+ ty +:+ "'.",
   "will use value as text.").

(** [_update()] of a body cell at column [idx] of table [t]: the new cell and
    the console, or the [TypeError] that reading [this.type] or calling an
    inherited member raised. The handle that [_update] resets first is an
    entry of the store of [cell_update]. *)
Definition td_update (reg : gmap string renderer) (t : option table)
  (idx : nat) (c : td) (console : list (string * string))
  : result (td * list (string * string)) :=
  ty ← td_type t idx;
  match registry_get reg ty with
  | Some (Own f) =>
      h ← td_header t idx;
      Ok (with_content c (f c h), console)
  | Some (Inherited name) =>
      _ ← inherited_render name;
      Ok (c, console)
  | None =>
      ty' ← td_type t idx;
      Ok (with_content c (CText (default "" (td_value c))),
          console ++ [missing_renderer_warning ty'])
  end.

(** ** Bulk import and export *)

(** The loop of [clear()], [for (let tbody of this.tBodies) tbody.remove()].
    [tBodies] is a live collection and the iterator reads it by index: at
    each step the element at [idx] of the collection as it is now is taken,
    removed from the table, and [idx] advances. The loop ends when [idx]
    reaches the current length; [fuel] bounds the number of steps. *)
Fixpoint clear_loop {A : Type} (fuel idx : nat) (bodies : list A) : list A :=
  match fuel with
  | O => bodies
  | S fuel' =>
      match bodies !! idx with
      | None => bodies
      | Some _ => clear_loop fuel' (S idx) (delete idx bodies)
      end
  end.

(** [clear()]. Each step removes a body, so as many steps as there are
    bodies suffice. *)
Definition clear (t : table) : table :=
  {| tHead := tHead t;
     tBodies := clear_loop (length (tBodies t)) 0 (tBodies t) |}.

(** The entries at odd positions. *)
Fixpoint odd_entries {A : Type} (l : list A) : list A :=
  match l with
  | _ :: b :: rest => b :: odd_entries rest
  | _ => []
  end.

(** A row of the data given to [from]: an array, or an object, given by its
    own properties and by the properties it inherits (for an object
    literal or an object read from JSON, the members of
    [Object.prototype]). *)
Inductive jsrow : Type :=
  | ArrayRow (items : list jsval)
  | ObjectRow (own inherited : gmap string jsval).

(** [row[k]] for an object row; [undefined] for a key that is found
    nowhere. *)
Definition get_property (own inherited : gmap string jsval) (k : string)
  : jsval :=
  match own !! k with
  | Some v => v
  | None => default JUndefined (inherited !! k)
  end.

(** The string that ends up in the [value] attribute of a new cell of a
    column of type [ty], for the raw value [v]:
    [td.value = importer(v)] if [importers[ty]] is truthy, else
    [td.value = v ?? '']. *)
Definition import_value (imp : gmap string importer) (ty : option string)
  (v : jsval) : result string :=
  match registry_get imp (registry_key ty) with
  | Some (Own f) => Ok (to_String (f v))
  | Some (Inherited name) => r ← inherited_import name v; Ok (to_String r)
  | None => Ok (to_String (nullish_or v (JStr "")))
  end.

(** [column_types[idx]]; [None] is [undefined]. *)
Definition type_at (types : list (option string)) (idx : nat)
  : option string :=
  mjoin (types !! idx).

(** The cells made for an array row, [for (let idx in row)]. *)
Definition import_array_row (imp : gmap string importer)
  (types : list (option string)) (items : list jsval)
  : result (list td) :=
  itraverse (λ idx v,
               s ← import_value imp (type_at types idx) v;
               Ok (new_td (Some s)))
            0 items.

(** The cells made for an object row, [for (let idx in column_names)]. *)
Definition import_object_row (imp : gmap string importer)
  (names types : list (option string)) (own inherited : gmap string jsval)
  : result (list td) :=
  itraverse (λ idx k,
               match k with
               | Some key =>
                   s ← import_value imp (type_at types idx)
                         (get_property own inherited key);
                   Ok (new_td (Some s))
               | None => Ok (new_td None)
               end)
            0 names.

Definition import_row (imp : gmap string importer)
  (names types : list (option string)) (row : jsrow) : result (list td) :=
  match row with
  | ArrayRow items => import_array_row imp types items
  | ObjectRow own inherited =>
      import_object_row imp names types own inherited
  end.

(** [from(arr)]: [clear()], then the names and types of the columns are
    read, then [createTBody()] adds a body after the bodies that are left,
    and one row per entry of [arr] is inserted into it. When an import
    throws, [from] throws; the rows made until then are not kept track
    of. *)
Definition from (imp : gmap string importer) (arr : list jsrow)
  (t : table) : result table :=
  let t1 := clear t in
  names ← column_names t1;
  types ← column_types t1;
  body ← traverse (import_row imp names types) arr;
  Ok {| tHead := tHead t1; tBodies := tBodies t1 ++ [body] |}.

(** The body of the innermost loop of [to_array()] for the cell at column
    [idx]. *)
Definition export_cell (exp : gmap string exporter) (t : table) (idx : nat)
  (c : td) : result exported :=
  ty ← td_type (Some t) idx;
  match registry_get exp ty with
  | Some (Own f) => h ← td_header (Some t) idx; Ok (f c h)
  | Some (Inherited name) => inherited_export name c
  | None => Ok (EValue (td_value c))
  end.

(** [to_array()]. *)
Definition to_array (exp : gmap string exporter) (t : table)
  : result (list (list exported)) :=
  bodies ← traverse (traverse (itraverse (export_cell exp t) 0)) (tBodies t);
  Ok (concat bodies).

(** [from(arr)] followed at once by [to_array()]. *)
Definition round_trip (imp : gmap string importer)
  (exp : gmap string exporter) (arr : list jsrow) (t : table)
  : result (list (list exported)) :=
  t' ← from imp arr t; to_array exp t'.

(** ** Mutations of the header row *)

(** A child node of the header row, with its identity: an element (a header
    cell) or any other node (text, comment). *)
Inductive node : Type :=
  | Element (id : nat)
  | Text (id : nat).

#[global] Instance node_eq_dec : EqDecision node.
Proof. solve_decision. Defined.

(** [node.nodeType == Node.ELEMENT_NODE]. *)
Definition is_element (n : node) : bool :=
  match n with
  | Element _ => true
  | Text _ => false
  end.

(** A [childList] mutation record of the header row. *)
Record mutation : Type := mk_mutation {
  addedNodes : list node;
  removedNodes : list node;
  previousSibling : option node
}.

(** [target.children] for the child nodes [nodes] of the row. *)
Definition children (nodes : list node) : list node :=
  filter (λ n, is_element n) nodes.

(** [Array.prototype.indexOf]: the position of the first occurrence, or -1;
    [i] is the position of the head of [l]. *)
Fixpoint index_from (i : nat) (n : node) (l : list node) : Z :=
  match l with
  | [] => (-1)%Z
  | x :: rest =>
      if decide (x = n) then Z.of_nat i else index_from (S i) n rest
  end.

Definition indexOf (l : list node) (n : node) : Z := index_from 0 n l.

(** [n.previousElementSibling] among the child nodes [l] of the row, where
    [last] is the last element seen so far; a node that is not a child of
    the row any more has no sibling. *)
Fixpoint prev_element_from (last : option node) (n : node) (l : list node)
  : option node :=
  match l with
  | [] => None
  | x :: rest =>
      if decide (x = n) then last
      else prev_element_from (if is_element x then Some x else last) n rest
  end.

Definition previousElementSibling (siblings : list node) (n : node)
  : option node :=
  prev_element_from None n siblings.

(** An index that may be [-1], or [+Infinity]. *)
Inductive znum : Type :=
  | ZFin (z : Z)
  | ZInf.

Definition znum_min (a b : znum) : znum :=
  match a, b with
  | ZFin x, ZFin y => ZFin (Z.min x y)
  | ZFin x, ZInf => ZFin x
  | ZInf, b => b
  end.

Definition znum_succ (a : znum) : znum :=
  match a with
  | ZFin z => ZFin (z + 1)
  | ZInf => ZInf
  end.

(** The column handed to [update]; it is never negative. *)
Definition znum_to_num (a : znum) : num :=
  match a with
  | ZFin z => Fin (Z.to_nat z)
  | ZInf => PosInf
  end.

(** The loop of [on_thead_tr_children_changed] over the records;
    [now] are the child nodes of the row when the callback runs and [acc] is
    [first_prev_sibling_index]. *)
Fixpoint first_prev_sibling_index (now : list node) (acc : znum)
  (mutations : list mutation) : znum :=
  match mutations with
  | [] => acc
  | m :: rest =>
      if existsb is_element (addedNodes m ++ removedNodes m) then
        let prev_sibling :=
          match previousSibling m with
          | Some n =>
              if is_element n then Some n else previousElementSibling now n
          | None => None
          end in
        match prev_sibling with
        | None => ZFin (-1)
        | Some p =>
            first_prev_sibling_index now
              (znum_min acc (ZFin (indexOf (children now) p))) rest
        end
      else first_prev_sibling_index now acc rest
  end.

(** [on_thead_tr_children_changed(mutations)]. *)
Definition on_thead_tr_children_changed (now : list node)
  (mutations : list mutation) (s : scheduler) : scheduler :=
  let first_update_column :=
    znum_succ (first_prev_sibling_index now ZInf mutations) in
  update_default (Some (Fin 0)) (Some (znum_to_num first_update_column))
    None None s.

(** *** The document side: how the records come about *)

(** A change of the child list of the header row: a node is inserted so that
    it ends up at position [pos], or the node at position [pos] is
    removed. *)
Inductive dom_op : Type :=
  | InsertAt (pos : nat) (n : node)
  | RemoveAt (pos : nat).

(** The child list after the change and the record the observer gets: the
    record names the node that stood just before the change at the time of
    the change. *)
Definition apply_op (nodes : list node) (op : dom_op)
  : list node * list mutation :=
  match op with
  | InsertAt pos n =>
      (take pos nodes ++ n :: drop pos nodes,
       [mk_mutation [n] [] (last (take pos nodes))])
  | RemoveAt pos =>
      match nodes !! pos with
      | Some n =>
          (delete pos nodes, [mk_mutation [] [n] (last (take pos nodes))])
      | None => (nodes, [])
      end
  end.

(** A batch: the changes made before the callback runs, oldest first. *)
Fixpoint apply_ops (nodes : list node) (ops : list dom_op)
  : list node * list mutation :=
  match ops with
  | [] => (nodes, [])
  | op :: rest =>
      let '(nodes1, records1) := apply_op nodes op in
      let '(nodes2, records2) := apply_ops nodes1 rest in
      (nodes2, records1 ++ records2)
  end.

(** The region that a batch of changes of the header row [nodes] puts in the
    queue of a fresh table. *)
Definition header_change_regions (nodes : list node) (ops : list dom_op)
  : list region :=
  let '(now, records) := apply_ops nodes ops in
  update_regions (on_thead_tr_children_changed now records new_scheduler).

(** The earliest column at which two header rows differ: the length of their
    longest common prefix. *)
Fixpoint first_difference (a b : list node) : nat :=
  match a, b with
  | x :: a', y :: b' =>
      if decide (x = y) then S (first_difference a' b') else 0
  | _, _ => 0
  end.

(** The earliest column that a batch affects. *)
Definition earliest_affected_column (nodes : list node) (ops : list dom_op)
  : nat :=
  first_difference (children nodes) (children (fst (apply_ops nodes ops))).

(** The change inserts a header cell that is new to the row, or removes a
    header cell. *)
Definition changes_a_cell (nodes : list node) (op : dom_op) : Prop :=
  match op with
  | InsertAt pos n =>
      is_element n = true ∧ (n ∉ nodes) ∧ pos ≤ length nodes
  | RemoveAt pos => ∃ id, nodes !! pos = Some (Element id)
  end.

(** ** Reading one row: [data] *)

(** The loop of [data(row, column)] over the bodies: [row] is the index that
    is left and [tr] the row found so far. The loop has no exit: after a row
    has been found, the bodies that follow are still looked at. *)
Fixpoint data_row (bodies : list (list (list td))) (row : nat)
  (tr : option (list td)) : option (list td) :=
  match bodies with
  | [] => tr
  | tbody :: rest =>
      if length tbody <=? row
      then data_row rest (row - length tbody) tr
      else data_row rest row (tbody !! row)
  end.

(** What [data] returns: one value, or the values of a row. *)
Inductive data_result : Type :=
  | DataValue (v : option string)
  | DataRow (vs : list (option string)).

(** [data(row, column)]; [column = None] is the call without column. *)
Definition data (t : table) (row : nat) (column : option nat)
  : result data_result :=
  match data_row (tBodies t) row None with
  | None => TypeError
  | Some cells =>
      match column with
      | Some c =>
          match cells !! c with
          | Some cell => Ok (DataValue (td_value cell))
          | None => TypeError
          end
      | None => Ok (DataRow (map td_value cells))
      end
  end.

(** ** Attribute writes on a body cell *)

(** [set value(v)], [this.setAttribute('value', v)]. *)
Definition td_set_value (v : string) (c : td) : td :=
  {| td_value := Some v; td_max := td_max c; td_content := td_content c |}.

(** A write of [value] to the cell at [pos]: the attribute changes and
    [attributeChangedCallback] calls [update()]. The state is the cell and
    the store of pending renders. *)
Definition td_write (pos : nat * nat) (st : td * list (nat * nat))
  (v : string) : td * list (nat * nat) :=
  (td_set_value v (fst st), cell_update pos (snd st)).

(** ** The observers of the table and of the header cells *)

(** What the table remembers of its observers: the header section and the
    header row that are being observed, by identity; [None] is [null]. *)
Record observers : Type := mk_observers {
  observed_thead : option nat;
  observed_thead_tr : option nat
}.

(** The state [connectedCallback] leaves. *)
Definition new_observers : observers :=
  {| observed_thead := None; observed_thead_tr := None |}.

(** [on_children_changed(mutations)]; [new_thead] is [this.tHead]. *)
Definition on_children_changed (new_thead : option nat)
  (st : observers * scheduler) : observers * scheduler :=
  let '(o, s) := st in
  if decide (observed_thead o = new_thead) then (o, s)
  else
    let o' := {| observed_thead := new_thead;
                 observed_thead_tr := observed_thead_tr o |} in
    match new_thead with
    | Some _ => (o', update_default None None None None s)
    | None => (o', s)
    end.

(** [on_thead_children_changed(mutations)]; [new_thead_tr] is
    [this.header_row], which throws when the table has no header section. *)
Definition on_thead_children_changed (new_thead_tr : result (option nat))
  (st : observers * scheduler) : result (observers * scheduler) :=
  let '(o, s) := st in
  tr ← new_thead_tr;
  if decide (tr = observed_thead_tr o) then Ok (o, s)
  else Ok ({| observed_thead := observed_thead o;
              observed_thead_tr := tr |},
           update_default None None None None s).

(** [on_type_changed] of the header cell at column [idx]; [table] is the
    scheduler of [this.closest('table[is=ren-table]')], if there is one. *)
Definition on_type_changed (idx : nat) (table : option scheduler)
  : option scheduler :=
  update_default (Some (Fin 0)) (Some (Fin idx)) (Some PosInf)
    (Some (Fin (idx + 1))) <$> table.

(** One notification that reaches the table from its own observers. *)
Inductive notification : Type :=
  | ChildrenChanged (new_thead : option nat)
  | TheadChildrenChanged (new_thead_tr : option nat)
  | TheadTrChildrenChanged (now : list node) (mutations : list mutation)
  | TypeChanged (idx : nat).

Definition notify (st : observers * scheduler) (n : notification)
  : observers * scheduler :=
  match n with
  | ChildrenChanged new_thead => on_children_changed new_thead st
  | TheadChildrenChanged new_tr =>
      match on_thead_children_changed (Ok new_tr) st with
      | Ok st' => st'
      | TypeError => st
      end
  | TheadTrChildrenChanged now mutations =>
      (fst st, on_thead_tr_children_changed now mutations (snd st))
  | TypeChanged idx =>
      (fst st, default (snd st) (on_type_changed idx (Some (snd st))))
  end.

(** The table after a run of notifications, oldest first. *)
Definition notified (ns : list notification) : observers * scheduler :=
  fold_left notify ns (new_observers, new_scheduler).

(** ** Vocabulary of the statements *)

(** A cell lies in the rectangle of a region. *)
Definition in_rectangle (r c : nat) (g : region) : bool :=
  num_leb (row_start g) (Fin r) && num_leb (column_start g) (Fin c)
  && num_ltb (Fin r) (row_end g) && num_ltb (Fin c) (column_end g).

(** Lexicographic order on the composite key ([row_start], then
    [column_start]). *)
Definition key_leb (a b : region) : bool :=
  num_ltb (row_start a) (row_start b)
  || (num_eqb (row_start a) (row_start b)
      && num_leb (column_start a) (column_start b)).

(** Every earlier entry is below every later entry. *)
Fixpoint ascending (leb : region -> region -> bool) (q : list region)
  : bool :=
  match q with
  | [] => true
  | a :: rest => forallb (leb a) rest && ascending leb rest
  end.

(** The order that [update] compares by: weights, none of them [NaN]. *)
Definition weight_leb (a b : region) : bool :=
  match region_weight a, region_weight b with
  | Some x, Some y => Nat.leb x y
  | _, _ => false
  end.

(** The registry resolves [name] without a member of [Object.prototype]:
    to an own property, or to nothing. *)
Definition own_or_absent {H : Type} (reg : gmap string H) (name : string)
  : Prop :=
  is_Some (reg !! name) ∨ name ∉ object_prototype_names.

(** The children of the header row, none when there is no header row. *)
Definition header_children (t : table) : list th :=
  match header_row t with
  | Ok (Some children) => children
  | _ => []
  end.

(** What [to_array()] holds for the cell [c] at column [idx] under the
    children [children] of the header row, where the type of the cell
    resolves and its exporter is an own property of the registry, or there
    is none: what the exporter returns, or the value of the cell. *)
Definition exported_as (exp : gmap string exporter) (children : list th)
  (idx : nat) (c : td) : exported :=
  match children !! idx with
  | Some h =>
      match exp !! default "text" (th_type h) with
      | Some f => f c (Some h)
      | None => EValue (td_value c)
      end
  | None => EValue (td_value c)
  end.

(** The string that [from] stores for the raw value [v] in a column of type
    [ty], where the importer is an own property of the registry, or there
    is none: the string of what the importer returns, or of [v ?? '']. *)
Definition imported_value (imp : gmap string importer) (ty : option string)
  (v : jsval) : string :=
  match imp !! registry_key ty with
  | Some f => to_String (f v)
  | None => to_String (nullish_or v (JStr ""))
  end.

(** The cells that [from] makes for a row, under the same condition: one
    per entry of an array row; one per header cell for an object row,
    without value where the header cell has no name. *)
Definition imported_row (imp : gmap string importer)
  (names types : list (option string)) (row : jsrow) : list td :=
  match row with
  | ArrayRow items =>
      imap (λ idx v, new_td (Some (imported_value imp (type_at types idx) v)))
        items
  | ObjectRow own inherited =>
      imap (λ idx k,
              match k with
              | Some key =>
                  new_td (Some (imported_value imp (type_at types idx)
                                  (get_property own inherited key)))
              | None => new_td None
              end)
        names
  end.

#[global] Instance own_or_absent_dec {H : Type} (reg : gmap string H)
  (name : string) : Decision (own_or_absent reg name).
Proof. unfold own_or_absent. apply _. Defined.

(** A row has no more cells than the header row. *)
Definition row_fits (n_columns : nat) (row : jsrow) : Prop :=
  match row with
  | ArrayRow items => length items ≤ n_columns
  | ObjectRow _ _ => True
  end.

(** Both starts of the region are integers and the column start has a
    single decimal digit. *)
Definition single_digit_column (g : region) : Prop :=
  ∃ a b, row_start g = Fin a ∧ column_start g = Fin b ∧ b < 10.

(** A region as the observers of the widget enqueue it: it starts at the
    first row and has no last row. *)
Definition whole_rows (g : region) : Prop :=
  row_start g = Fin 0 ∧ row_end g = PosInf.

(** Both starts of the region are integers. *)
Definition integer_starts (g : region) : Prop :=
  ∃ a b, row_start g = Fin a ∧ column_start g = Fin b.

(** Row-major order on cell positions. *)
Definition pos_lt (p q : nat * nat) : Prop :=
  p.1 < q.1 ∨ (p.1 = q.1 ∧ p.2 < q.2).

(** The cell at row [r], column [c] of the flattened rows exists. *)
Definition cell_exists {A : Type} (rows : list (list A)) (r c : nat) : Prop :=
  ∃ cells, rows !! r = Some cells ∧ c < length cells.

(** A record with an element among its added or removed nodes. *)
Definition structural (m : mutation) : bool :=
  existsb is_element (addedNodes m ++ removedNodes m).

(** The cells of the header row ([tr.cells]), none when there is no header
    row. *)
Definition header_of (t : table) : list th :=
  match header_cells t with
  | Ok cells => cells
  | TypeError => []
  end.

(** Every row of every body has at most [n] cells. *)
Definition rows_within (n : nat) (bodies : list (list (list td))) : Prop :=
  Forall (Forall (λ row : list td, length row ≤ n)) bodies.

(** ** Sample inputs *)

(** A region with unbounded ends, as [update(rs, cs)] enqueues it. *)
Definition open_region (rs cs : nat) : region :=
  mk_region (Fin rs) (Fin cs) PosInf PosInf.

(** A body of [n_rows] rows of [n_cols] cells each. *)
Definition grid (n_rows n_cols : nat) : list (list unit) :=
  replicate n_rows (replicate n_cols ()).

(** A [ren-th] header cell with the given [type] and [name] attributes. *)
Definition ren_th (ty name : option string) : th :=
  mk_th RenHeader ty name None.

(** The header of the example of the README, with a fifth column of a type
    that has no handler, and no body. *)
Definition sample_table : table :=
  {| tHead := Some [[ren_th (Some "text") (Some "title");
                     ren_th (Some "progress") (Some "completed");
                     ren_th (Some "check") (Some "done");
                     ren_th (Some "img") (Some "icon");
                     ren_th (Some "custom") None]];
     tBodies := [] |}.

(** What an object literal inherits under the name [toString], as V8 prints
    the function. *)
Definition object_literal_inherited : gmap string jsval :=
  {[ "toString" := JObject "function toString() { [native code] }" ]}.

(** A header row of four cells. *)
Definition four_cells : list node :=
  [Element 0; Element 1; Element 2; Element 3].

(** The index that one record contributes to the minimum: [+Infinity] when
    no element was added or removed, -1 when the previous element sibling
    is missing or no longer a child of the row. *)
Definition record_index (now : list node) (m : mutation) : znum :=
  if existsb is_element (addedNodes m ++ removedNodes m) then
    match previousSibling m with
    | Some n =>
        if is_element n then ZFin (indexOf (children now) n)
        else match previousElementSibling now n with
             | Some p => ZFin (indexOf (children now) p)
             | None => ZFin (-1)
             end
    | None => ZFin (-1)
    end
  else ZInf.

(** An index that [indexOf] can return, or [+Infinity]. *)
Definition at_least_minus_one (a : znum) : Prop :=
  match a with
  | ZFin z => (-1 ≤ z)%Z
  | ZInf => True
  end.

(* ===================================================================== *)
(** * Part II: properties                                                 *)
(* ===================================================================== *)

(** ** The update queue *)

Example weight_1_20 : weight (Fin 1) (Fin 20) = Some 120.
Proof. reflexivity. Qed.

Example weight_12_0 : weight (Fin 12) (Fin 0) = Some 120.
Proof. reflexivity. Qed.

Example weight_0_inf : weight (Fin 0) PosInf = None.
Proof. reflexivity. Qed.

Lemma schedule_pass_regions s :
  update_regions (schedule_pass s) = update_regions s.
Proof. unfold schedule_pass. by destruct (update_handle s). Qed.

Lemma update_regions_update rs cs re ce s :
  update_regions (update rs cs re ce s)
  = insert_entry (weight rs cs) (mk_region rs cs re ce) (update_regions s).
Proof. unfold update. by rewrite schedule_pass_regions. Qed.

Lemma insert_entry_length w e q :
  length (insert_entry w e q) = S (length q).
Proof.
  induction q as [|cur rest IH]; simpl; [done|].
  destruct (nan_gtb (region_weight cur) w); simpl; by rewrite ?IH.
Qed.

Lemma insert_entry_elem w e q g :
  g ∈ insert_entry w e q ↔ g = e ∨ g ∈ q.
Proof.
  induction q as [|cur rest IH]; simpl.
  - rewrite list_elem_of_singleton, elem_of_nil. tauto.
  - destruct (nan_gtb (region_weight cur) w).
    + rewrite !elem_of_cons. tauto.
    + rewrite !elem_of_cons, IH. tauto.
Qed.

Lemma weight_leb_trans a b c :
  weight_leb a b = true → weight_leb b c = true → weight_leb a c = true.
Proof.
  unfold weight_leb.
  destruct (region_weight a), (region_weight b), (region_weight c);
    try discriminate.
  rewrite !Nat.leb_le. lia.
Qed.

Lemma ascending_cons leb a q :
  ascending leb (a :: q) = true
  ↔ Forall (λ b, leb a b = true) q ∧ ascending leb q = true.
Proof.
  cbn [ascending]. rewrite andb_true_iff, forallb_forall, Forall_forall.
  setoid_rewrite list_elem_of_In. tauto.
Qed.

(** What [update] does maintain: the queue stays in ascending order of the
    concatenated-decimal weight, as long as no weight is [NaN]. *)
Lemma insert_entry_ascending_weight e q :
  is_Some (region_weight e) →
  Forall (λ g, is_Some (region_weight g)) q →
  ascending weight_leb q = true →
  ascending weight_leb (insert_entry (region_weight e) e q) = true.
Proof.
  intros [w Hw] Hnum. induction Hnum as [|cur rest [x Hx] Hnum IH]; intros Hq.
  - reflexivity.
  - cbn [insert_entry]. apply ascending_cons in Hq as [Hall Hrest].
    rewrite Hx, Hw. simpl.
    destruct (Nat.ltb_spec w x) as [Hlt|Hge].
    + assert (Hle : weight_leb e cur = true).
      { unfold weight_leb. rewrite Hw, Hx. apply Nat.leb_le. lia. }
      apply ascending_cons. split.
      * constructor; [done|].
        eapply Forall_impl; [exact Hall|].
        intros b Hb. by eapply weight_leb_trans.
      * apply ascending_cons. by split.
    + apply ascending_cons. split.
      * apply Forall_forall. intros b Hb.
        rewrite <- Hw in Hb.
        apply insert_entry_elem in Hb as [->|Hb].
        -- unfold weight_leb. rewrite Hw, Hx. by apply Nat.leb_le.
        -- rewrite Forall_forall in Hall. by apply Hall.
      * rewrite <- Hw. by apply IH.
Qed.

Lemma updates_snoc calls r s :
  updates (calls ++ [r]) s = update_region r (updates calls s).
Proof. unfold updates. by rewrite fold_left_app. Qed.

Lemma updates_regions_numeric calls :
  Forall (λ g, is_Some (region_weight g)) calls →
  Forall (λ g, is_Some (region_weight g))
         (update_regions (updates calls new_scheduler)).
Proof.
  induction calls as [|r calls IH] using rev_ind; intros Hc.
  - constructor.
  - rewrite updates_snoc. unfold update_region.
    rewrite update_regions_update.
    apply Forall_app in Hc as [Hc Hr]. inversion Hr as [|? ? Hr' _]; subst.
    apply Forall_forall. intros g Hg.
    apply insert_entry_elem in Hg as [->|Hg].
    + by destruct r.
    + specialize (IH Hc). rewrite Forall_forall in IH. by apply IH.
Qed.

(** Over any run of calls whose weights are numbers, the queue is ascending
    in the weight. *)
Lemma updates_ascending_weight calls :
  Forall (λ g, is_Some (region_weight g)) calls →
  ascending weight_leb (update_regions (updates calls new_scheduler)) = true.
Proof.
  induction calls as [|r calls IH] using rev_ind; intros Hc.
  - reflexivity.
  - rewrite updates_snoc. unfold update_region.
    rewrite update_regions_update.
    apply Forall_app in Hc as [Hc Hr]. inversion Hr as [|? ? Hr' _]; subst.
    replace (weight (row_start r) (column_start r))
      with (region_weight (mk_region (row_start r) (column_start r)
                                     (row_end r) (column_end r)))
      by reflexivity.
    apply insert_entry_ascending_weight.
    + exact Hr'.
    + by apply updates_regions_numeric.
    + by apply IH.
Qed.


(** ** Scheduling of the pass *)

Lemma update_handle_set rs cs re ce s :
  is_Some (update_handle (update rs cs re ce s)).
Proof.
  unfold update, schedule_pass. simpl.
  destruct (update_handle s) eqn:H; simpl; rewrite ?H; eauto.
Qed.

Lemma update_pending_passes rs cs re ce s :
  pending_passes (update rs cs re ce s)
  = pending_passes s
    ++ match update_handle s with None => [next_timer s] | Some _ => [] end.
Proof.
  unfold update, schedule_pass. simpl.
  destruct (update_handle s); simpl; by rewrite ?app_nil_r.
Qed.

Lemma updates_pending_passes calls s :
  pending_passes (updates calls s)
  = pending_passes s
    ++ match update_handle s, calls with
       | None, _ :: _ => [next_timer s]
       | _, _ => []
       end.
Proof.
  revert s. induction calls as [|r calls IH]; intros s.
  - simpl. destruct (update_handle s); by rewrite app_nil_r.
  - change (updates (r :: calls) s) with (updates calls (update_region r s)).
    rewrite IH. unfold update_region.
    destruct (update_handle_set (row_start r) (column_start r)
                (row_end r) (column_end r) s) as [h Hh].
    rewrite Hh, app_nil_r. apply update_pending_passes.
Qed.

Lemma updates_regions_length calls s :
  length (update_regions (updates calls s))
  = length (update_regions s) + length calls.
Proof.
  revert s. induction calls as [|r calls IH]; intros s.
  - simpl. lia.
  - change (updates (r :: calls) s) with (updates calls (update_region r s)).
    rewrite IH. unfold update_region.
    rewrite update_regions_update, insert_entry_length. simpl. lia.
Qed.

(** ** The trace of one pass *)

Lemma scan_cells_elem i j n q r c :
  (r, c) ∈ scan_cells i j n q
  ↔ r = i ∧ j ≤ c < j + n ∧ cell_matches i c q = true.
Proof.
  revert j. induction n as [|n IH]; intros j; cbn [scan_cells].
  - rewrite elem_of_nil. lia.
  - rewrite elem_of_app, IH. split.
    + intros [H|H].
      * destruct (cell_matches i j q) eqn:Hm.
        -- apply list_elem_of_singleton in H. injection H as -> ->.
           split; [done|]. split; [lia|done].
        -- by apply elem_of_nil in H.
      * destruct H as (-> & Hc & Hm). split; [done|]. split; [lia|done].
    + intros (-> & Hc & Hm). destruct (decide (c = j)) as [->|Hne].
      * left. rewrite Hm. by apply list_elem_of_singleton.
      * right. split; [done|]. split; [lia|done].
Qed.

Lemma scan_cells_NoDup i j n q : NoDup (scan_cells i j n q).
Proof.
  revert j. induction n as [|n IH]; intros j; cbn [scan_cells].
  - constructor.
  - destruct (cell_matches i j q); simpl; [|apply IH].
    constructor; [|apply IH].
    rewrite scan_cells_elem. lia.
Qed.

Lemma scan_rows_row_ge {A} i (rows : list (list A)) q r c :
  (r, c) ∈ scan_rows i rows q → i ≤ r.
Proof.
  revert i q. induction rows as [|cells rest IH]; intros i q; cbn [scan_rows].
  - by rewrite elem_of_nil.
  - destruct (drop_passed i q) as [|head tl]; [by rewrite elem_of_nil|].
    destruct (num_ltb (Fin i) (row_start head)).
    + intros H. apply IH in H. lia.
    + rewrite elem_of_app, scan_cells_elem. intros [(-> & _)|H]; [done|].
      apply IH in H. lia.
Qed.

Lemma scan_rows_NoDup {A} i (rows : list (list A)) q :
  NoDup (scan_rows i rows q).
Proof.
  revert i q. induction rows as [|cells rest IH]; intros i q; cbn [scan_rows].
  - constructor.
  - destruct (drop_passed i q) as [|head tl]; [constructor|].
    destruct (num_ltb (Fin i) (row_start head)); [apply IH|].
    apply NoDup_app. split; [apply scan_cells_NoDup|]. split; [|apply IH].
    intros [r c] Hin Hin'. apply scan_cells_elem in Hin as (-> & _).
    apply scan_rows_row_ge in Hin'. lia.
Qed.

Lemma cell_updates_fresh trace pending :
  NoDup (pending ++ trace) → cell_updates trace pending = pending ++ trace.
Proof.
  revert pending. induction trace as [|pos trace IH]; intros pending Hnd.
  - by rewrite app_nil_r.
  - cbn [cell_updates fold_left]. unfold cell_update at 2.
    assert (Hnot : pos ∉ pending).
    { apply NoDup_app in Hnd as (_ & Hd & _). intros Hin.
      apply (Hd pos Hin). by left. }
    rewrite bool_decide_eq_false_2 by done.
    change (fold_left (λ acc p, cell_update p acc) trace (pending ++ [pos]))
      with (cell_updates trace (pending ++ [pos])).
    rewrite IH; rewrite <- app_assoc; done.
Qed.

Lemma cell_update_NoDup pos pending :
  NoDup pending →
  NoDup (cell_update pos pending) ∧ pos ∈ cell_update pos pending
  ∧ ∀ p, p ∈ pending → p ∈ cell_update pos pending.
Proof.
  intros Hnd. unfold cell_update. case_bool_decide as Hin.
  - done.
  - split; [|split].
    + apply NoDup_app. split; [done|]. split; [|apply NoDup_singleton].
      intros p Hp Hp'. apply list_elem_of_singleton in Hp' as ->. done.
    + apply elem_of_app. right. by apply list_elem_of_singleton.
    + intros p Hp. apply elem_of_app. by left.
Qed.

(** Whatever renders are pending before the pass, every cell has at most
    one pending render after it, and every touched cell has one. *)
Lemma cell_updates_NoDup trace pending :
  NoDup pending →
  NoDup (cell_updates trace pending)
  ∧ ∀ p, p ∈ trace ∨ p ∈ pending → p ∈ cell_updates trace pending.
Proof.
  revert pending. induction trace as [|pos trace IH]; intros pending Hnd.
  - split; [done|]. intros p [Hp|Hp]; [by apply elem_of_nil in Hp|done].
  - destruct (cell_update_NoDup pos pending Hnd) as (Hnd' & Hpos & Hkeep).
    destruct (IH _ Hnd') as [Hres Hin].
    split; [exact Hres|]. intros p [Hp|Hp].
    + apply elem_of_cons in Hp as [->|Hp]; apply Hin; [by right|by left].
    + apply Hin. right. by apply Hkeep.
Qed.

(** What the sweep guarantees for a touched cell: it exists, and some queued
    region has reached its row and spans its column. The region's [row_end]
    is not part of the guarantee. *)
Lemma cell_matches_sound i c q :
  cell_matches i c q = true →
  ∃ g, g ∈ q ∧ num_leb (row_start g) (Fin i) = true
       ∧ num_leb (column_start g) (Fin c) = true
       ∧ num_ltb (Fin c) (column_end g) = true.
Proof.
  induction q as [|g rest IH]; cbn [cell_matches]; [done|].
  destruct (num_ltb (Fin i) (row_start g)) eqn:Hrow; [done|].
  destruct (num_leb (column_start g) (Fin c)
            && num_ltb (Fin c) (column_end g)) eqn:Hcol.
  - intros _. exists g. apply andb_true_iff in Hcol as [H1 H2].
    split; [by left|]. split; [|done].
    destruct (row_start g) as [x|]; simpl in *; [|done].
    apply Nat.ltb_ge in Hrow. by apply Nat.leb_le.
  - intros H. destruct (IH H) as (g' & Hin & Hg'). exists g'.
    split; [by right|done].
Qed.

Lemma drop_passed_elem i q g : g ∈ drop_passed i q → g ∈ q.
Proof.
  induction q as [|h rest IH]; cbn [drop_passed]; [done|].
  destruct (num_leb (row_end h) (Fin i)); [|done].
  intros H. right. by apply IH.
Qed.

Lemma scan_rows_sound {A} i (rows : list (list A)) q r c :
  (r, c) ∈ scan_rows i rows q →
  (∃ cells, rows !! (r - i) = Some cells ∧ c < length cells)
  ∧ ∃ g, g ∈ q ∧ num_leb (row_start g) (Fin r) = true
         ∧ num_leb (column_start g) (Fin c) = true
         ∧ num_ltb (Fin c) (column_end g) = true.
Proof.
  revert i q. induction rows as [|cells rest IH]; intros i q; cbn [scan_rows].
  - by rewrite elem_of_nil.
  - destruct (drop_passed i q) as [|head tl] eqn:Hq; [by rewrite elem_of_nil|].
    assert (Hsub : ∀ g, g ∈ head :: tl → g ∈ q).
    { intros g Hg. apply (drop_passed_elem i). by rewrite Hq. }
    assert (Hrest : (r, c) ∈ scan_rows (S i) rest (head :: tl) →
      (∃ cells0, (cells :: rest) !! (r - i) = Some cells0 ∧ c < length cells0)
      ∧ ∃ g, g ∈ q ∧ num_leb (row_start g) (Fin r) = true
             ∧ num_leb (column_start g) (Fin c) = true
             ∧ num_ltb (Fin c) (column_end g) = true).
    { intros H. pose proof (scan_rows_row_ge _ _ _ _ _ H) as Hge.
      apply IH in H as [(cells0 & Hl & Hc) (g & Hg & Hrest)]. split.
      - exists cells0. split; [|done].
        replace (r - i) with (S (r - S i)) by lia. exact Hl.
      - exists g. split; [by apply Hsub|done]. }
    destruct (num_ltb (Fin i) (row_start head)); [exact Hrest|].
    rewrite elem_of_app. intros [H|H]; [|by apply Hrest].
    apply scan_cells_elem in H as (-> & Hc & Hm). split.
    + exists cells. rewrite Nat.sub_diag. split; [done|lia].
    + apply cell_matches_sound in Hm as (g & Hg & Hrest').
      exists g. split; [by apply Hsub|done].
Qed.

(** The order the sweep relies on: ascending [row_start]. *)
Lemma cell_matches_complete i c q g :
  ascending (λ a b, num_leb (row_start a) (row_start b)) q = true →
  g ∈ q →
  num_leb (row_start g) (Fin i) = true →
  num_leb (column_start g) (Fin c) = true →
  num_ltb (Fin c) (column_end g) = true →
  cell_matches i c q = true.
Proof.
  intros Hasc Hin Hrow Hc1 Hc2.
  induction q as [|h rest IH]; [by apply elem_of_nil in Hin|].
  apply ascending_cons in Hasc as [Hall Hasc]. cbn [cell_matches].
  assert (Hh : num_ltb (Fin i) (row_start h) = false).
  { apply elem_of_cons in Hin as [<-|Hin].
    - destruct (row_start g) as [x|]; simpl in *; [|done].
      apply Nat.leb_le in Hrow. by apply Nat.ltb_ge.
    - rewrite Forall_forall in Hall. specialize (Hall g Hin).
      destruct (row_start h) as [x|], (row_start g) as [y|];
        simpl in *; try done.
      apply Nat.leb_le in Hall, Hrow. apply Nat.ltb_ge. lia. }
  rewrite Hh.
  destruct (num_leb (column_start h) (Fin c)
            && num_ltb (Fin c) (column_end h)) eqn:Hcol; [done|].
  apply elem_of_cons in Hin as [->|Hin]; [|by apply IH].
  by rewrite Hc1, Hc2 in Hcol.
Qed.

Lemma drop_passed_keeps i q g :
  g ∈ q → num_leb (row_end g) (Fin i) = false → g ∈ drop_passed i q.
Proof.
  intros Hin Hend. induction q as [|h rest IH]; [done|].
  cbn [drop_passed]. destruct (num_leb (row_end h) (Fin i)) eqn:Hh; [|done].
  apply elem_of_cons in Hin as [->|Hin]; [congruence|by apply IH].
Qed.

Lemma drop_passed_ascending leb i q :
  ascending leb q = true → ascending leb (drop_passed i q) = true.
Proof.
  induction q as [|h rest IH]; [done|]. intros H. cbn [drop_passed].
  destruct (num_leb (row_end h) (Fin i)); [|done].
  apply ascending_cons in H as [_ H]. by apply IH.
Qed.

(** On a queue that is in ascending order of [row_start], the sweep reaches
    every existing cell that lies in the rectangle of a queued region. *)
Lemma scan_rows_complete {A} i (rows : list (list A)) q g r c cells :
  ascending (λ a b, num_leb (row_start a) (row_start b)) q = true →
  g ∈ q → in_rectangle r c g = true →
  i ≤ r → rows !! (r - i) = Some cells → c < length cells →
  (r, c) ∈ scan_rows i rows q.
Proof.
  intros Hasc Hin Hrect. unfold in_rectangle in Hrect.
  apply andb_true_iff in Hrect as [Hrect Hce].
  apply andb_true_iff in Hrect as [Hrect Hre].
  apply andb_true_iff in Hrect as [Hrs Hcs].
  revert i q Hasc Hin.
  induction rows as [|cells0 rest IH]; intros i q Hasc Hin Hir Hl Hc;
    [done|].
  cbn [scan_rows].
  assert (Hkeep : g ∈ drop_passed i q).
  { apply drop_passed_keeps; [done|].
    destruct (row_end g) as [e|]; simpl in *; [|done].
    apply Nat.ltb_lt in Hre. apply Nat.leb_gt. lia. }
  pose proof (drop_passed_ascending _ i q Hasc) as Hasc'.
  destruct (drop_passed i q) as [|head tl]; [by apply elem_of_nil in Hkeep|].
  assert (Hnext : i < r → (r, c) ∈ scan_rows (S i) rest (head :: tl)).
  { intros Hlt. apply IH; [done|done|lia| |done].
    replace (r - i) with (S (r - S i)) in Hl by lia. exact Hl. }
  destruct (num_ltb (Fin i) (row_start head)) eqn:Hhead.
  - apply Hnext.
    assert (Hhg : num_leb (row_start head) (row_start g) = true).
    { apply elem_of_cons in Hkeep as [->|Hg].
      - destruct (row_start head); simpl; [by apply Nat.leb_le|done].
      - apply ascending_cons in Hasc' as [Hall _].
        rewrite Forall_forall in Hall. by apply Hall. }
    destruct (row_start head) as [x|], (row_start g) as [y|];
      simpl in *; try done.
    apply Nat.ltb_lt in Hhead. apply Nat.leb_le in Hhg, Hrs. lia.
  - apply elem_of_app. destruct (decide (r = i)) as [->|Hne].
    + left. apply scan_cells_elem. split; [done|]. split.
      * rewrite Nat.sub_diag in Hl. injection Hl as ->. lia.
      * by eapply cell_matches_complete.
    + right. apply Hnext. lia.
Qed.

(** ** The weight as a number *)

Lemma to_uint_not_Nil n : Nat.to_uint n ≠ Decimal.Nil.
Proof.
  intros H. destruct n as [|n]; [discriminate H|].
  pose proof (Unsigned.of_to (S n)) as Hn. rewrite H in Hn. discriminate Hn.
Qed.

Lemma js_String_Fin n :
  js_String (Fin n) = NilEmpty.string_of_uint (Nat.to_uint n).
Proof.
  unfold js_String, NilZero.string_of_uint.
  pose proof (to_uint_not_Nil n). by destruct (Nat.to_uint n).
Qed.

(** Parsing the concatenation of two runs of digits continues the
    accumulation of the first run with the second. *)
Lemma uint_of_string_append d1 s d2 :
  NilEmpty.uint_of_string s = Some d2 →
  ∃ d, NilEmpty.uint_of_string (NilEmpty.string_of_uint d1 +:+ s) = Some d
       ∧ ∀ acc, Nat.of_uint_acc d acc
                = Nat.of_uint_acc d2 (Nat.of_uint_acc d1 acc).
Proof.
  intros Hs. induction d1 as [|d1 IH|d1 IH|d1 IH|d1 IH|d1 IH|d1 IH|d1 IH
                              |d1 IH|d1 IH|d1 IH].
  1: by exists d2.
  all: destruct IH as (d & Hd & Hacc); simpl; rewrite Hd; simpl;
    eexists; split; [reflexivity|]; intros acc; simpl; apply Hacc.
Qed.

(** For integer starts the weight is the decimal concatenation: the row
    start shifted left by the number of digits of the column start, plus the
    column start. *)
Lemma weight_finite a b :
  weight (Fin a) (Fin b)
  = Some (a * 10 ^ Unsigned.usize (Nat.to_uint b) + b).
Proof.
  unfold weight, js_Number. rewrite !js_String_Fin.
  destruct (uint_of_string_append (Nat.to_uint a)
              (NilEmpty.string_of_uint (Nat.to_uint b)) (Nat.to_uint b)
              (NilEmpty.usu _)) as (d & Hd & Hacc).
  assert (Hz : NilZero.uint_of_string
                 (NilEmpty.string_of_uint (Nat.to_uint a)
                  +:+ NilEmpty.string_of_uint (Nat.to_uint b)) = Some d).
  { unfold NilZero.uint_of_string. rewrite Hd.
    pose proof (to_uint_not_Nil a).
    by destruct (Nat.to_uint a). }
  rewrite Hz. f_equal. unfold Nat.of_uint. rewrite Hacc.
  change (Nat.of_uint_acc (Nat.to_uint a) 0) with (Nat.of_uint (Nat.to_uint a)).
  rewrite Unsigned.of_to, Unsigned.of_uint_acc_spec.
  rewrite <- Unsigned.of_uint_alt, Unsigned.of_to. lia.
Qed.

Lemma weight_single_digit a b :
  b < 10 → weight (Fin a) (Fin b) = Some (10 * a + b).
Proof.
  intros Hb. rewrite weight_finite. f_equal.
  do 10 (destruct b as [|b]; [simpl; lia|]). lia.
Qed.

(** With single-digit column starts the weight orders the regions as the
    composite key does. *)
Lemma weight_leb_key_leb g1 g2 :
  single_digit_column g1 → single_digit_column g2 →
  weight_leb g1 g2 = key_leb g1 g2.
Proof.
  intros (a1 & b1 & Ha1 & Hb1 & H1) (a2 & b2 & Ha2 & Hb2 & H2).
  unfold weight_leb, key_leb, region_weight.
  rewrite Ha1, Hb1, Ha2, Hb2, !weight_single_digit by done. simpl.
  apply eq_true_iff_eq.
  rewrite orb_true_iff, andb_true_iff, !Nat.leb_le, Nat.ltb_lt, Nat.eqb_eq.
  lia.
Qed.

Lemma ascending_ext (leb1 leb2 : region → region → bool) (P : region → Prop)
  q :
  (∀ a b, P a → P b → leb1 a b = leb2 a b) → Forall P q →
  ascending leb1 q = ascending leb2 q.
Proof.
  intros Hext. induction 1 as [|a q Ha Hq IH]; [done|].
  cbn [ascending]. rewrite IH. f_equal.
  rewrite Forall_forall in Hq. clear IH.
  induction q as [|b q IHq]; [done|]. simpl.
  rewrite Hext by (done || (apply Hq; by left)). f_equal.
  apply IHq. intros x Hx. apply Hq. by right.
Qed.

Lemma updates_regions_Forall (P : region → Prop) calls :
  Forall P calls → Forall P (update_regions (updates calls new_scheduler)).
Proof.
  induction calls as [|r calls IH] using rev_ind; intros Hc.
  - constructor.
  - rewrite updates_snoc. unfold update_region.
    rewrite update_regions_update.
    apply Forall_app in Hc as [Hc Hr]. inversion Hr as [|? ? Hr' _]; subst.
    apply Forall_forall. intros g Hg.
    apply insert_entry_elem in Hg as [->|Hg].
    + by destruct r.
    + specialize (IH Hc). rewrite Forall_forall in IH. by apply IH.
Qed.

Lemma single_digit_column_numeric g :
  single_digit_column g → is_Some (region_weight g).
Proof.
  intros (a & b & Ha & Hb & _). unfold region_weight.
  rewrite Ha, Hb, weight_finite. eauto.
Qed.

(** Where C2 does hold: as long as every call has integer starts and a
    column start below 10, the queue is in ascending order of the composite
    key. *)
Lemma updates_ascending_key_single_digit calls :
  Forall single_digit_column calls →
  ascending key_leb (update_regions (updates calls new_scheduler)) = true.
Proof.
  intros Hc.
  rewrite <- (ascending_ext weight_leb key_leb single_digit_column).
  - apply updates_ascending_weight.
    eapply Forall_impl; [exact Hc|]. apply single_digit_column_numeric.
  - intros a b. apply weight_leb_key_leb.
  - by apply updates_regions_Forall.
Qed.

Lemma key_leb_row_start a b :
  key_leb a b = true → num_leb (row_start a) (row_start b) = true.
Proof.
  unfold key_leb. rewrite orb_true_iff, andb_true_iff.
  destruct (row_start a) as [x|], (row_start b) as [y|]; simpl;
    rewrite ?Nat.ltb_lt, ?Nat.leb_le, ?Nat.eqb_eq; try tauto; try lia.
Qed.

Lemma ascending_impl (leb1 leb2 : region → region → bool) q :
  (∀ a b, leb1 a b = true → leb2 a b = true) →
  ascending leb1 q = true → ascending leb2 q = true.
Proof.
  intros Himpl. induction q as [|a q IH]; [done|].
  rewrite !ascending_cons. intros [Hall Hq]. split; [|by apply IH].
  eapply Forall_impl; [exact Hall|]. intros b. apply Himpl.
Qed.

(** Where the "if" direction of C1 does hold: after calls with single-digit
    column starts, the pass reaches every existing cell that lies in the
    rectangle of a pending region. *)
Lemma pass_reaches_cells_single_digit {A} calls (rows : list (list A))
  g r c cells :
  Forall single_digit_column calls →
  g ∈ update_regions (updates calls new_scheduler) →
  in_rectangle r c g = true →
  rows !! r = Some cells → c < length cells →
  (r, c) ∈ snd (table_update rows (updates calls new_scheduler)).
Proof.
  intros Hc Hg Hrect Hrow Hcol. cbn [table_update snd].
  eapply scan_rows_complete; eauto.
  - eapply ascending_impl; [|by apply updates_ascending_key_single_digit].
    intros a b. apply key_leb_row_start.
  - lia.
  - by rewrite Nat.sub_0_r.
Qed.

(** ** Claims about the scheduler *)

(** C2, at a failing input. [update(1, 10)] followed by [update(2, 0)]: the
    weights are 110 and 20, so the second entry is spliced in before the
    first and the queue is [(2,0); (1,10)], which is not in ascending order
    of the composite key ([row_start], then [column_start]). *)
Theorem update_misorders_composite_key :
  let calls := [open_region 1 10; open_region 2 0] in
  let q := update_regions (updates calls new_scheduler) in
  region_weight (open_region 1 10) = Some 110
  ∧ region_weight (open_region 2 0) = Some 20
  ∧ q = [open_region 2 0; open_region 1 10]
  ∧ ascending key_leb q = false.
Proof. vm_compute. repeat split. Qed.

(** The pair of keys named in the design notes: equal weights, so whichever
    is enqueued first stays first. *)
Lemma update_ties_keep_call_order :
  update_regions (updates [open_region 12 0; open_region 1 20] new_scheduler)
  = [open_region 12 0; open_region 1 20]
  ∧ ascending key_leb [open_region 12 0; open_region 1 20] = false.
Proof. vm_compute. by split. Qed.

(** C1, at a failing input. After [update(1, 10)] and [update(2, 0)] the
    queue is headed by the region that starts at row 2, so the sweep skips
    rows 0 and 1 altogether: the cell at row 1, column 10 lies in the
    rectangle of a pending region and its [update()] is not called. *)
Theorem pass_misses_cell_in_pending_region :
  let s := updates [open_region 1 10; open_region 2 0] new_scheduler in
  let trace := snd (table_update (grid 3 11) s) in
  existsb (in_rectangle 1 10) (update_regions s) = true
  ∧ ((1, 10) ∉ trace)
  ∧ trace = scan_cells 2 0 11 [open_region 2 0].
Proof.
  cbv zeta. split; [by vm_compute|]. split; [|by vm_compute].
  apply (bool_decide_unpack _). by vm_compute.
Qed.

(** The other direction fails as well: a region that is exhausted but is not
    at the head of the queue is still tested, by column only. With
    [update(0, 0, 10, 1)] and [update(0, 5, 1, 6)] pending, the cell at row
    1, column 5 is in neither rectangle and its [update()] is called. *)
Lemma pass_touches_cell_outside_every_region :
  let calls := [mk_region (Fin 0) (Fin 0) (Fin 10) (Fin 1);
                mk_region (Fin 0) (Fin 5) (Fin 1) (Fin 6)] in
  let s := updates calls new_scheduler in
  let trace := snd (table_update (grid 2 6) s) in
  update_regions s = calls
  ∧ existsb (in_rectangle 1 5) (update_regions s) = false
  ∧ (1, 5) ∈ trace.
Proof.
  cbv zeta. split; [by vm_compute|]. split; [by vm_compute|].
  apply (bool_decide_unpack _). by vm_compute.
Qed.

(** The handle holds a timer exactly while one pass is pending, and no more
    than one pass is ever pending. *)
Lemma run_pending_passes {A} (history : list (event A)) :
  pending_passes (run history)
  = match update_handle (run history) with
    | Some h => [h]
    | None => []
    end.
Proof.
  unfold run. induction history as [|e history IH] using rev_ind;
    [done|].
  rewrite fold_left_app. cbn [fold_left].
  destruct e as [r|rows]; cbn [step].
  - unfold update_region. rewrite update_pending_passes, IH.
    unfold update, schedule_pass. simpl.
    by destruct (update_handle (fold_left step history new_scheduler)).
  - set (s0 := fold_left step history new_scheduler) in *.
    destruct (pending_passes s0) as [|h hs] eqn:Hp.
    + by rewrite Hp.
    + simpl. rewrite Hp. destruct (update_handle s0); [|done].
      by injection IH as _ ->.
Qed.

(** C3, at a failing input. [update(1, 10)] is called twice and then
    [update(2, 0)], before the pass runs: one pass is pending, as claimed,
    and the three regions are queued, headed by the one that starts at
    row 2. The cell at row 1, column 10 lies in two overlapping pending
    regions, and the pass calls its [update()] not once but never: the cell
    is not rendered at all. *)
Theorem overlapping_updates_leave_cell_unrendered :
  let calls := [open_region 1 10; open_region 1 10; open_region 2 0] in
  let s := updates calls new_scheduler in
  let trace := snd (table_update (grid 3 11) s) in
  length (pending_passes s) = 1
  ∧ update_regions s = [open_region 2 0; open_region 1 10; open_region 1 10]
  ∧ length (filter (λ g, in_rectangle 1 10 g = true) (update_regions s)) = 2
  ∧ ((1, 10) ∉ trace)
  ∧ (1, 10) ∉ cell_updates trace [].
Proof.
  cbv zeta. split; [by vm_compute|]. split; [by vm_compute|].
  split; [by vm_compute|].
  split; apply (bool_decide_unpack _); by vm_compute.
Qed.

(** A cell under three pending regions is rendered once. *)
Example overlapping_regions_render_once :
  let calls := [open_region 0 0; open_region 0 1;
                mk_region (Fin 0) (Fin 0) (Fin 1) (Fin 2)] in
  let s := updates calls new_scheduler in
  pending_passes s = [1]
  ∧ snd (table_update (grid 1 2) s) = [(0, 0); (0, 1)].
Proof. vm_compute. by split. Qed.

(** C4. When [_update] returns, the queue is empty and the handle is
    cleared, for every queue and every table; in particular, after any
    history, the pass that a call of [update] has scheduled leaves an empty
    queue when it runs. *)
Theorem pass_empties_queue :
  ∀ (A : Type) (rows : list (list A)) (s : scheduler),
    update_regions (fst (table_update rows s)) = []
    ∧ update_handle (fst (table_update rows s)) = None
    ∧ ∀ (history : list (event A)) (r : region),
        update_regions (run (history ++ [Call r; Timeout rows])) = [].
Proof.
  intros A rows s. split; [done|]. split; [done|].
  intros history r. unfold run. rewrite fold_left_app. cbn [fold_left step].
  fold (run history).
  destruct (update_handle_set (row_start r) (column_start r) (row_end r)
              (column_end r) (run history)) as [h Hh].
  unfold update_region.
  rewrite (update_pending_passes (row_start r) (column_start r) (row_end r)
             (column_end r) (run history)).
  rewrite run_pending_passes.
  by destruct (update_handle (run history)).
Qed.

(** The sweep alone would leave a region that starts below the last row in
    the queue; the final assignment removes it. *)
Example pass_drops_unreached_region :
  let s := updates [open_region 5 0] new_scheduler in
  remaining_regions 0 (grid 2 3) (update_regions s) = [open_region 5 0]
  ∧ update_regions (fst (table_update (grid 2 3) s)) = [].
Proof. vm_compute. by split. Qed.

(** ** Body cells: type resolution and rendering *)

Lemma bind_Ok {A B} (r : result A) (f : A → result B) b :
  (x ← r; f x) = Ok b ↔ ∃ a, r = Ok a ∧ f a = Ok b.
Proof.
  destruct r as [a|]; simpl; split.
  - intros H. by exists a.
  - by intros (a' & [= ->] & H).
  - done.
  - by intros (a' & ? & _).
Qed.

(** Where the header row has a child element at the column, the type of the
    body cell is that element's [type], and ["text"] when it has none; under
    a [ren-th] it is the [type] attribute, and ["text"] without one. *)
Lemma td_type_of_header_cell t children rows idx h :
  tHead t = Some (children :: rows) → children !! idx = Some h →
  td_type (Some t) idx = Ok (default "text" (th_type h))
  ∧ (th_kind h = RenHeader →
     td_type (Some t) idx = Ok (default "text" (th_type_attr h))).
Proof.
  intros Hh Hc.
  assert (td_type (Some t) idx = Ok (default "text" (th_type h))) as E.
  { unfold td_type, td_header, table_header, header_row.
    rewrite Hh. simpl. by rewrite Hc. }
  split; [done|]. intros Hren. rewrite E. unfold th_type. by rewrite Hren.
Qed.

Lemma td_type_Ok_header t idx ty :
  td_type t idx = Ok ty → ∃ h, td_header t idx = Ok (Some h).
Proof.
  unfold td_type. intros H. apply bind_Ok in H as ([h|] & Hh & H); [|done].
  by exists h.
Qed.

(** C9, at failing inputs. Reading [type] raises a [TypeError] for a cell
    whose column has no header cell (here column 1 under a header row of one
    cell), for a table without header section, and for a header section
    without row; it returns ["text"] in none of the three. *)
Theorem td_type_throws_without_header_cell :
  td_type (Some {| tHead := Some [[ren_th None None]]; tBodies := [] |}) 1
  = TypeError
  ∧ td_type (Some {| tHead := None; tBodies := [] |}) 0 = TypeError
  ∧ td_type (Some {| tHead := Some []; tBodies := [] |}) 0 = TypeError
  ∧ td_type (Some {| tHead := Some [[ren_th None None]]; tBodies := [] |}) 0
    = Ok "text".
Proof. repeat split. Qed.

(** A cell outside any table has no header either. *)
Example td_type_throws_when_detached : td_type None 0 = TypeError.
Proof. reflexivity. Qed.

Lemma registry_get_own {H} (reg : gmap string H) name f :
  reg !! name = Some f → registry_get reg name = Some (Own f).
Proof. unfold registry_get. by intros ->. Qed.

Lemma registry_get_absent {H} (reg : gmap string H) name :
  reg !! name = None → name ∉ object_prototype_names →
  registry_get reg name = None.
Proof.
  unfold registry_get. intros -> Hn. by rewrite bool_decide_eq_false_2.
Qed.

Lemma registry_get_inherited {H} (reg : gmap string H) name :
  reg !! name = None → name ∈ object_prototype_names →
  registry_get reg name = Some (Inherited name).
Proof.
  unfold registry_get. intros -> Hn. by rewrite bool_decide_eq_true_2.
Qed.

(** Where the name resolves without [Object.prototype], the lookup is the
    lookup among the own properties. *)
Lemma registry_get_own_or_absent {H} (reg : gmap string H) name :
  own_or_absent reg name → registry_get reg name = Own <$> reg !! name.
Proof.
  intros [[f Hf]|Hn].
  - rewrite Hf. by apply registry_get_own.
  - destruct (reg !! name) as [f|] eqn:Hf.
    + by apply registry_get_own.
    + by apply registry_get_absent.
Qed.

Lemma td_update_unregistered (reg : gmap string renderer) t idx c console ty :
  td_type t idx = Ok ty → reg !! ty = None → ty ∉ object_prototype_names →
  td_update reg t idx c console
  = Ok (with_content c (CText (default "" (td_value c))),
        console ++ [missing_renderer_warning ty]).
Proof.
  intros Hty Hnone Hn. unfold td_update. rewrite Hty.
  unfold mbind, result_bind. by rewrite registry_get_absent.
Qed.

Lemma td_update_registered (reg : gmap string renderer) t idx c console ty f :
  td_type t idx = Ok ty → reg !! ty = Some f →
  ∃ h, td_header t idx = Ok (Some h)
       ∧ td_update reg t idx c console
         = Ok (with_content c (f c (Some h)), console).
Proof.
  intros Hty Hf. destruct (td_type_Ok_header _ _ _ Hty) as [h Hh].
  exists h. split; [done|].
  unfold td_update. rewrite Hty.
  unfold mbind, result_bind. by rewrite (registry_get_own _ _ _ Hf), Hh.
Qed.

(** A type that names a member of [Object.prototype] and no own property:
    the member is called in place of a renderer, and the cell is left as it
    is when the call returns. *)
Lemma td_update_inherited (reg : gmap string renderer) t idx c console ty :
  td_type t idx = Ok ty → reg !! ty = None → ty ∈ object_prototype_names →
  td_update reg t idx c console
  = (_ ← inherited_render ty; Ok (c, console)).
Proof.
  intros Hty Hnone Hin. unfold td_update. rewrite Hty.
  unfold mbind at 1, result_bind at 1. by rewrite registry_get_inherited.
Qed.

(** C8, at failing inputs. The types ["__proto__"] and ["toString"] have no
    registered renderer. For a cell of a column of type ["__proto__"] the
    lookup finds [Object.prototype], which cannot be called, and [_update]
    throws; for a cell of a column of type ["toString"] it finds
    [Object.prototype.toString], the call returns, the cell keeps the
    content it had (here the empty text, not its value) and nothing is
    logged. *)
Theorem td_update_calls_inherited_member :
  let under (ty : string) :=
    Some {| tHead := Some [[ren_th (Some ty) None]]; tBodies := [] |} in
  let c := new_td (Some "raw") in
  renderers !! "__proto__" = None
  ∧ td_type (under "__proto__") 0 = Ok "__proto__"
  ∧ td_update renderers (under "__proto__") 0 c [] = TypeError
  ∧ renderers !! "toString" = None
  ∧ td_type (under "toString") 0 = Ok "toString"
  ∧ td_update renderers (under "toString") 0 c [] = Ok (c, [])
  ∧ td_content c = CText "".
Proof. vm_compute. repeat split. Qed.

(** For a cell whose type resolves to [ty]: when no renderer is registered
    for [ty] and [ty] names no member of [Object.prototype], [_update]
    returns normally, the cell shows its raw value as text and one warning
    naming [ty] is logged; when a renderer is registered, the cell shows
    what that renderer produces and nothing is logged. *)
Lemma td_update_falls_back_to_plain_text :
  ∀ (reg : gmap string renderer) (t : option table) (idx : nat) (c : td)
    (console : list (string * string)) (ty : string),
    td_type t idx = Ok ty →
    (reg !! ty = None → ty ∉ object_prototype_names →
     td_update reg t idx c console
     = Ok (with_content c (CText (default "" (td_value c))),
           console ++ [missing_renderer_warning ty]))
    ∧ (∀ f, reg !! ty = Some f →
        ∃ h, td_header t idx = Ok (Some h)
             ∧ td_update reg t idx c console
               = Ok (with_content c (f c (Some h)), console)).
Proof.
  intros reg t idx c console ty Hty. split.
  - intros Hnone Hn. by apply td_update_unregistered.
  - intros f Hf. by eapply td_update_registered.
Qed.

(** The fifth scenario of the specification: the type ["custom"]. *)
Example td_update_custom_type :
  td_type (Some sample_table) 4 = Ok "custom"
  ∧ td_update renderers (Some sample_table) 4 (new_td (Some "raw")) []
    = Ok (with_content (new_td (Some "raw")) (CText "raw"),
          [missing_renderer_warning "custom"]).
Proof. vm_compute. by split. Qed.

Lemma check_mark_not_cross_mark : check_mark ≠ cross_mark.
Proof. discriminate. Qed.

Lemma value_truthy_spec v :
  value_truthy v = true ↔ ∃ s, v = Some s ∧ s ≠ "".
Proof.
  unfold value_truthy. rewrite negb_true_iff, String.eqb_neq.
  destruct v as [s|]; simpl.
  - split; [intros H; by exists s|]. by intros (s' & [= ->] & H).
  - split; [done|]. by intros (s' & ? & _).
Qed.

(** C10. A cell whose type resolves to ["check"] is rendered by the built-in
    check renderer as one of two glyphs: the check mark exactly when the
    [value] attribute is present and not the empty string, the cross mark
    exactly when it is absent or empty. Nothing else about the string
    counts. *)
Theorem check_renderer_tests_raw_string :
  ∀ (t : option table) (idx : nat) (c : td)
    (console : list (string * string)),
    td_type t idx = Ok "check" →
    ∃ glyph,
      td_update renderers t idx c console
      = Ok (with_content c (CText glyph), console)
      ∧ (glyph = check_mark ↔ ∃ s, td_value c = Some s ∧ s ≠ "")
      ∧ (glyph = cross_mark ↔ td_value c = None ∨ td_value c = Some "").
Proof.
  intros t idx c console Hty.
  destruct (td_update_registered renderers t idx c console "check"
              render_check Hty) as (h & _ & Hup); [reflexivity|].
  exists (if value_truthy (td_value c) then check_mark else cross_mark).
  split; [exact Hup|].
  pose proof (value_truthy_spec (td_value c)) as Hspec.
  destruct (value_truthy (td_value c)) eqn:Hv.
  - destruct Hspec as [Hs _]. destruct (Hs eq_refl) as (s & Hsome & Hne).
    split; [split; eauto|].
    split; [intros H; by destruct check_mark_not_cross_mark|].
    rewrite Hsome. intros [?|[= ->]]; done.
  - split.
    + split; [intros H; by destruct check_mark_not_cross_mark|].
      intros H. apply Hspec in H. done.
    + split; [|done]. intros _.
      destruct (td_value c) as [s|]; [|by left]. right. f_equal.
      destruct (String.eqb_spec s ""); [done|].
      destruct Hspec as [_ Hs]. discriminate Hs. by exists s.
Qed.

Lemma check_renderer_tests_raw_string_witness :
  td_type (Some sample_table) 2 = Ok "check"
  ∧ ∃ glyph,
      td_update renderers (Some sample_table) 2 (new_td (Some "false")) []
      = Ok (with_content (new_td (Some "false")) (CText glyph), [])
      ∧ (glyph = check_mark
         ↔ ∃ s, td_value (new_td (Some "false")) = Some s ∧ s ≠ "")
      ∧ (glyph = cross_mark
         ↔ td_value (new_td (Some "false")) = None
           ∨ td_value (new_td (Some "false")) = Some "").
Proof.
  split; [reflexivity|].
  apply (check_renderer_tests_raw_string (Some sample_table) 2
           (new_td (Some "false")) []); reflexivity.
Defined.

(** The strings ["0"] and ["false"] show the check mark; the empty string
    and the absent attribute show the cross mark. *)
Example check_renderer_on_literals :
  render_check (new_td (Some "0")) None = CText check_mark
  ∧ render_check (new_td (Some "false")) None = CText check_mark
  ∧ render_check (new_td (Some "")) None = CText cross_mark
  ∧ render_check (new_td None) None = CText cross_mark.
Proof. repeat split. Qed.

(** ** [clear], [from] and [to_array] *)

Lemma clear_loop_done {A} fuel idx (l : list A) :
  length l ≤ idx → clear_loop fuel idx l = l.
Proof.
  intros H. destruct fuel; [done|]. simpl.
  by rewrite (lookup_ge_None_2 l idx).
Qed.

(** The loop of [clear()] removes the bodies at even positions and leaves
    those at odd positions. *)
Lemma clear_loop_spec {A} fuel (kept rest : list A) :
  length rest ≤ fuel →
  clear_loop fuel (length kept) (kept ++ rest) = kept ++ odd_entries rest.
Proof.
  revert kept rest. induction fuel as [|fuel IH]; intros kept rest Hfuel.
  - destruct rest; [done|simpl in Hfuel; lia].
  - destruct rest as [|a [|b rest]].
    + by rewrite clear_loop_done by (rewrite length_app; simpl; lia).
    + cbn [clear_loop]. rewrite list_lookup_middle by done.
      rewrite delete_middle. simpl.
      by rewrite clear_loop_done by (rewrite length_app; simpl; lia).
    + cbn [clear_loop]. rewrite list_lookup_middle by done.
      rewrite delete_middle. cbn [odd_entries].
      replace (kept ++ b :: rest) with ((kept ++ [b]) ++ rest)
        by by rewrite <- app_assoc.
      replace (S (length kept)) with (length (kept ++ [b]))
        by (rewrite length_app; simpl; lia).
      rewrite IH by (simpl in Hfuel; lia).
      by rewrite <- app_assoc.
Qed.

(** More fuel than there are bodies changes nothing: the loop has ended. *)
Lemma clear_loop_fuel {A} fuel (l : list A) :
  length l ≤ fuel → clear_loop fuel 0 l = odd_entries l.
Proof. intros H. by apply (clear_loop_spec fuel [] l). Qed.

Lemma clear_tBodies t : tBodies (clear t) = odd_entries (tBodies t).
Proof. unfold clear. simpl. by apply clear_loop_fuel. Qed.

Lemma odd_entries_short {A} (l : list A) :
  length l ≤ 1 → odd_entries l = [].
Proof. destruct l as [|a [|b l]]; simpl; [done|done|lia]. Qed.

Lemma traverse_Ok {A B} (f : A → result B) (g : A → B) (l : list A) :
  (∀ a, a ∈ l → f a = Ok (g a)) → traverse f l = Ok (map g l).
Proof.
  induction l as [|a l IH]; intros H; [done|].
  cbn [traverse]. rewrite H by (by left).
  unfold mbind, result_bind at 1. rewrite IH; [done|].
  intros b Hb. apply H. by right.
Qed.

Lemma itraverse_Ok {A B} (f : nat → A → result B) (g : nat → A → B) idx l :
  (∀ i a, l !! i = Some a → f (idx + i) a = Ok (g (idx + i) a)) →
  itraverse f idx l = Ok (imap (λ i, g (idx + i)) l).
Proof.
  revert idx. induction l as [|a l IH]; intros idx H; [done|].
  cbn [itraverse]. specialize (H 0 a eq_refl) as H0.
  rewrite Nat.add_0_r in H0. rewrite H0.
  unfold mbind, result_bind at 1. rewrite IH.
  - simpl. rewrite Nat.add_0_r. do 2 f_equal.
    apply imap_ext. intros i x _. simpl. f_equal. lia.
  - intros i x Hx. replace (S idx + i) with (idx + S i) by lia.
    by apply H.
Qed.

(** A loop that returns has run its body on every entry, in order. *)
Lemma itraverse_Ok_inv {A B} (f : nat → A → result B) idx l out :
  itraverse f idx l = Ok out →
  length out = length l
  ∧ ∀ i a, l !! i = Some a →
           ∃ b, f (idx + i) a = Ok b ∧ out !! i = Some b.
Proof.
  revert idx out. induction l as [|a l IH]; intros idx out H.
  - injection H as <-. split; [done|]. intros i a Hi. done.
  - cbn [itraverse] in H. apply bind_Ok in H as (b & Hb & H).
    apply bind_Ok in H as (bs & Hbs & [= <-]).
    destruct (IH _ _ Hbs) as [Hlen Hall]. split; [simpl; by rewrite Hlen|].
    intros [|i] x Hx.
    + injection Hx as <-. exists b. by rewrite Nat.add_0_r.
    + destruct (Hall i x Hx) as (y & Hy & Hout). exists y.
      by replace (idx + S i) with (S idx + i) by lia.
Qed.

Lemma traverse_Ok_inv {A B} (f : A → result B) l out :
  traverse f l = Ok out →
  length out = length l
  ∧ ∀ i a, l !! i = Some a → ∃ b, f a = Ok b ∧ out !! i = Some b.
Proof.
  revert out. induction l as [|a l IH]; intros out H.
  - injection H as <-. split; [done|]. intros i a Hi. done.
  - cbn [traverse] in H. apply bind_Ok in H as (b & Hb & H).
    apply bind_Ok in H as (bs & Hbs & [= <-]).
    destruct (IH _ Hbs) as [Hlen Hall]. split; [simpl; by rewrite Hlen|].
    intros [|i] x Hx.
    + injection Hx as <-. by exists b.
    + by apply Hall.
Qed.

(** Under a header row, the names and types of the columns are those of the
    cells of the row, and [header(idx)] indexes its children. *)
Lemma header_of_header_row t children rows :
  tHead t = Some (children :: rows) →
  header_cells t = Ok (header_of t)
  ∧ header_of t = filter (λ h, is_cell h) children
  ∧ header_children t = children.
Proof.
  intros Hh. unfold header_of, header_children, header_cells, header_row.
  by rewrite Hh.
Qed.

Lemma header_of_all_cells t children rows :
  tHead t = Some (children :: rows) →
  Forall (λ h, is_cell h = true) children → header_of t = children.
Proof.
  intros Hh Hall.
  destruct (header_of_header_row _ _ _ Hh) as (_ & -> & _).
  clear Hh. induction Hall as [|h l Hc _ IH]; [done|].
  rewrite filter_cons_True by (by rewrite Hc). by rewrite IH.
Qed.

Lemma header_of_length t : length (header_of t) ≤ length (header_children t).
Proof.
  unfold header_of, header_children, header_cells.
  destruct (header_row t) as [[children|]|]; simpl; [|done|done].
  apply length_filter.
Qed.

(** With a header row, [from] gets as far as the rows: the bodies at odd
    positions stay, and the imported rows, when every import returns, form
    one new body after them. *)
Lemma from_with_header_row imp arr t children rows :
  tHead t = Some (children :: rows) →
  from imp arr t
  = (body ← traverse (import_row imp (map th_name (header_of t))
                        (map th_type (header_of t))) arr;
     Ok {| tHead := tHead t;
           tBodies := odd_entries (tBodies t) ++ [body] |}).
Proof.
  intros Hh. destruct (header_of_header_row _ _ _ Hh) as (_ & Hof & _).
  unfold from, column_names, column_types, header_cells, header_row.
  rewrite clear_tBodies. simpl. rewrite Hh, Hof. done.
Qed.

(** Without a header section, or with one that has no row, [from] throws. *)
Lemma from_without_header_row imp arr t :
  tHead t = None ∨ tHead t = Some [] → from imp arr t = TypeError.
Proof.
  intros [Hh|Hh]; unfold from, column_names, header_cells, header_row;
    simpl; by rewrite Hh.
Qed.

(** An importer that is an own property is called; without any, the value
    is stored, the empty string for a missing one. *)
Lemma import_value_own_or_absent (imp : gmap string importer) ty v :
  own_or_absent imp (registry_key ty) →
  import_value imp ty v = Ok (imported_value imp ty v).
Proof.
  intros H. unfold import_value, imported_value.
  rewrite (registry_get_own_or_absent _ _ H).
  by destruct (imp !! registry_key ty).
Qed.

Lemma own_or_absent_type_at (imp : gmap string importer) types idx :
  Forall (λ ty, own_or_absent imp (registry_key ty)) types →
  own_or_absent imp (registry_key (type_at types idx)).
Proof.
  intros Hall. unfold type_at.
  destruct (types !! idx) as [ty|] eqn:Hty; simpl.
  - by apply (Forall_lookup_1 _ _ _ _ Hall Hty).
  - right. apply (bool_decide_unpack _). by vm_compute.
Qed.

(** Where no column type names an inherited member, every row is imported
    without a throw. *)
Lemma import_row_own_or_absent imp names types row :
  Forall (λ ty, own_or_absent imp (registry_key ty)) types →
  import_row imp names types row = Ok (imported_row imp names types row).
Proof.
  intros Hall. destruct row as [items|own inherited]; simpl.
  - unfold import_array_row.
    rewrite (itraverse_Ok _
               (λ idx v, new_td (Some (imported_value imp
                                         (type_at types idx) v)))); [done|].
    intros i v _. simpl.
    by rewrite import_value_own_or_absent by by apply own_or_absent_type_at.
  - unfold import_object_row.
    rewrite (itraverse_Ok _
               (λ idx k,
                  match k with
                  | Some key =>
                      new_td (Some (imported_value imp (type_at types idx)
                                      (get_property own inherited key)))
                  | None => new_td None
                  end)); [done|].
    intros i [key|] _; simpl; [|done].
    by rewrite import_value_own_or_absent by by apply own_or_absent_type_at.
Qed.

Lemma from_own_or_absent imp arr t children rows :
  tHead t = Some (children :: rows) →
  Forall (λ h, own_or_absent imp (registry_key (th_type h))) (header_of t) →
  from imp arr t
  = Ok {| tHead := tHead t;
          tBodies := odd_entries (tBodies t)
                     ++ [map (imported_row imp (map th_name (header_of t))
                                (map th_type (header_of t))) arr] |}.
Proof.
  intros Hh Hall. rewrite (from_with_header_row _ _ _ _ _ Hh).
  rewrite (traverse_Ok _ (imported_row imp (map th_name (header_of t))
                            (map th_type (header_of t)))); [done|].
  intros row _. apply import_row_own_or_absent. by rewrite Forall_fmap.
Qed.

(** On a table with at most one body, the imported rows are all that is
    left. *)
Lemma from_replaces_single_body imp arr t children rows :
  tHead t = Some (children :: rows) → length (tBodies t) ≤ 1 →
  Forall (λ h, own_or_absent imp (registry_key (th_type h))) (header_of t) →
  from imp arr t
  = Ok {| tHead := tHead t;
          tBodies := [map (imported_row imp (map th_name (header_of t))
                             (map th_type (header_of t))) arr] |}.
Proof.
  intros Hh Hlen Hall. rewrite (from_own_or_absent _ _ _ _ _ Hh Hall).
  by rewrite odd_entries_short.
Qed.

(** Array rows: when the row is imported, the entry at position [i] has
    made the cell at column [i], and there is no other cell. *)
Lemma import_array_row_lookup imp types items cells :
  import_array_row imp types items = Ok cells →
  length cells = length items
  ∧ ∀ i v, items !! i = Some v →
           ∃ s, import_value imp (type_at types i) v = Ok s
                ∧ cells !! i = Some (new_td (Some s)).
Proof.
  intros H. apply itraverse_Ok_inv in H as [Hlen Hall].
  split; [done|]. intros i v Hv.
  destruct (Hall i v Hv) as (c & Hc & Hi). simpl in Hc.
  apply bind_Ok in Hc as (s & Hs & [= <-]). by exists s.
Qed.

(** Object rows: when the row is imported, there is one cell per column; a
    column without name has got no value, a named column the import of
    what [row[name]] finds, be it an own or an inherited property, or of
    [undefined]. *)
Lemma import_object_row_lookup imp names types own inherited cells :
  import_object_row imp names types own inherited = Ok cells →
  length cells = length names
  ∧ (∀ i, names !! i = Some None → cells !! i = Some (new_td None))
  ∧ (∀ i key, names !! i = Some (Some key) →
       ∃ s, import_value imp (type_at types i)
              (get_property own inherited key) = Ok s
            ∧ cells !! i = Some (new_td (Some s))).
Proof.
  intros H. apply itraverse_Ok_inv in H as [Hlen Hall].
  split; [done|]. split.
  - intros i Hi. destruct (Hall i None Hi) as (c & Hc & Hci).
    simpl in Hc. by injection Hc as <-.
  - intros i key Hi. destruct (Hall i (Some key) Hi) as (c & Hc & Hci).
    simpl in Hc. apply bind_Ok in Hc as (s & Hs & [= <-]). by exists s.
Qed.

(** A missing raw value: the empty string without importer, the importer's
    answer with one. *)
Lemma import_value_missing (imp : gmap string importer) ty v :
  v = JUndefined ∨ v = JNull →
  (registry_get imp (registry_key ty) = None → import_value imp ty v = Ok "")
  ∧ (∀ f, imp !! registry_key ty = Some f →
          import_value imp ty v = Ok (to_String (f v))).
Proof.
  intros Hv. unfold import_value. split.
  - intros ->. by destruct Hv as [-> | ->].
  - intros f Hf. by rewrite (registry_get_own _ _ _ Hf).
Qed.

Example import_defaults :
  import_value importers (Some "check") JUndefined = Ok ""
  ∧ import_value importers (Some "progress") JUndefined = Ok "0"
  ∧ import_value importers (Some "text") JUndefined = Ok ""
  ∧ import_value importers (Some "progress") (JNum 30) = Ok "30"
  ∧ import_value importers (Some "check") (JBool false) = Ok ""
  ∧ import_value importers (Some "check") (JStr "0") = Ok "1"
  ∧ import_value importers (Some "text") (JBool false) = Ok "false".
Proof. vm_compute. repeat split. Qed.

(** A column type that names a member of [Object.prototype] has that member
    called as the importer. *)
Example import_through_inherited_member :
  import_value importers (Some "toString") (JStr "a")
  = Ok "[object Undefined]"
  ∧ import_value importers (Some "constructor") JUndefined
    = Ok "[object Object]"
  ∧ import_value importers (Some "constructor") (JNum 30) = Ok "30"
  ∧ import_value importers (Some "isPrototypeOf") (JStr "a") = Ok "false"
  ∧ import_value importers (Some "valueOf") (JStr "a") = TypeError
  ∧ import_value importers (Some "__proto__") (JStr "a") = TypeError.
Proof. vm_compute. repeat split. Qed.

(** The third scenario of the specification: names [title], none, [done]. *)
Example import_object_row_scenario :
  import_object_row importers
    [Some "title"; None; Some "done"]
    [Some "text"; Some "text"; Some "check"]
    {[ "title" := JStr "x" ]} ∅
  = Ok [new_td (Some "x"); new_td None; new_td (Some "")].
Proof. vm_compute. reflexivity. Qed.

(** A column named after an inherited property reads that property where
    the row has none of its own. *)
Example import_object_row_inherited :
  import_object_row importers [Some "toString"; Some "title"]
    [Some "text"; Some "text"]
    {[ "title" := JStr "x" ]} object_literal_inherited
  = Ok [new_td (Some "function toString() { [native code] }");
        new_td (Some "x")].
Proof. vm_compute. reflexivity. Qed.

Lemma export_cell_within exp t children rows idx c h :
  tHead t = Some (children :: rows) → children !! idx = Some h →
  own_or_absent exp (default "text" (th_type h)) →
  export_cell exp t idx c = Ok (exported_as exp children idx c).
Proof.
  intros Hh Hc Hown.
  unfold export_cell, exported_as, td_type, td_header, table_header,
    header_row. rewrite Hh. simpl. rewrite Hc. simpl.
  rewrite (registry_get_own_or_absent _ _ Hown).
  by destruct (exp !! default "text" (th_type h)).
Qed.

(** Beyond the children of the header row the export of a cell throws. *)
Lemma export_cell_beyond exp t children rows idx c :
  tHead t = Some (children :: rows) → length children ≤ idx →
  export_cell exp t idx c = TypeError.
Proof.
  intros Hh Hidx.
  unfold export_cell, td_type, td_header, table_header, header_row.
  rewrite Hh. simpl. by rewrite (lookup_ge_None_2 children idx).
Qed.

Lemma imported_row_length imp names types row :
  length (imported_row imp names types row)
  = match row with
    | ArrayRow items => length items
    | ObjectRow _ _ => length names
    end.
Proof. destruct row; simpl; by rewrite length_imap. Qed.

(** The round trip where it works: under a header row, on a table with at
    most one body, for rows that are not longer than the header row, and
    where no column type names an inherited member of a registry,
    [to_array()] right after [from(arr)] returns, row by row and cell by
    cell, what the exporter of the column makes of the imported cell, and
    the imported string itself where the type has no exporter. *)
Lemma round_trip_within_header imp exp arr t children rows :
  tHead t = Some (children :: rows) → length (tBodies t) ≤ 1 →
  Forall (λ h, own_or_absent imp (registry_key (th_type h))) (header_of t) →
  Forall (λ h, own_or_absent exp (default "text" (th_type h))) children →
  Forall (row_fits (length children)) arr →
  round_trip imp exp arr t
  = Ok (map (λ row, imap (exported_as exp children)
                      (imported_row imp (map th_name (header_of t))
                         (map th_type (header_of t)) row)) arr).
Proof.
  intros Hh Hlen Himp Hexp Hfit. unfold round_trip.
  rewrite (from_replaces_single_body _ _ _ _ _ Hh Hlen Himp).
  unfold mbind at 1, result_bind at 1.
  set (t' := {| tHead := tHead t; tBodies := _ |}).
  unfold to_array.
  rewrite (traverse_Ok _ (map (λ r, imap (exported_as exp children) r))).
  - unfold mbind, result_bind. simpl. by rewrite app_nil_r, map_map.
  - intros body Hbody. apply list_elem_of_singleton in Hbody as ->.
    apply traverse_Ok. intros r Hr.
    apply list_elem_of_fmap in Hr as (row & -> & Hrow).
    rewrite Forall_forall in Hfit. specialize (Hfit row Hrow).
    assert (length (imported_row imp (map th_name (header_of t))
                      (map th_type (header_of t)) row) ≤ length children)
      as Hle.
    { rewrite imported_row_length. destruct row as [items|own inherited];
        [done|]. rewrite length_map.
      pose proof (header_of_length t) as Hl.
      destruct (header_of_header_row _ _ _ Hh) as (_ & _ & Hch).
      by rewrite Hch in Hl. }
    rewrite (itraverse_Ok _ (exported_as exp children)); [done|].
    intros i c Hc. simpl. apply lookup_lt_Some in Hc.
    destruct (lookup_lt_is_Some_2 children i) as [h Hi]; [lia|].
    apply export_cell_within with (rows := rows) (h := h); [done|done|].
    by apply (Forall_lookup_1 _ _ _ _ Hexp Hi).
Qed.

(** The first scenario of the specification. *)
Example round_trip_scenario :
  round_trip importers exporters
    [ArrayRow [JStr "hi"; JNum 30; JBool false; JStr "/a.png"]]
    sample_table
  = Ok [[EValue (Some "hi"); EQuot (Some "30") MaxDefault; EBool false;
         EValue (Some "/a.png")]].
Proof. vm_compute. reflexivity. Qed.

(** The round trip through inherited members: a column of type
    ["toString"] comes back as the same string whatever went in, and a
    column of type ["valueOf"] makes [from] throw. *)
Example round_trip_through_inherited_member :
  let under (ty : string) :=
    {| tHead := Some [[ren_th (Some ty) None]]; tBodies := [] |} in
  round_trip importers exporters [ArrayRow [JStr "a"]] (under "toString")
  = Ok [[EValue (Some "[object Undefined]")]]
  ∧ from importers [ArrayRow [JStr "a"]] (under "valueOf") = TypeError
  ∧ to_array exporters
      {| tHead := Some [[ren_th (Some "valueOf") None]];
         tBodies := [[[new_td (Some "a")]]] |} = TypeError.
Proof. vm_compute. repeat split. Qed.

(** The names and types of the columns count the cells of the header row,
    [header(idx)] counts its children: after an element that is no cell,
    a column is imported under the type of one header cell and exported
    under the type of the one before it. *)
Example round_trip_past_a_template :
  let template := mk_th (NotACell None) None None None in
  let t := {| tHead := Some [[template;
                              ren_th (Some "text") None;
                              ren_th (Some "check") None]];
              tBodies := [] |} in
  column_types t = Ok [Some "text"; Some "check"]
  ∧ round_trip importers exporters [ArrayRow [JStr "a"; JBool false]] t
    = Ok [[EValue (Some "a"); EValue (Some "")]].
Proof. vm_compute. repeat split. Qed.

(** C5, at a failing input. Under a header row of one column, the row
    [["a", "b"]] is imported without error into two cells, and [to_array()]
    then throws while it resolves the type of the second cell: it returns no
    value for either column. *)
Theorem round_trip_throws_beyond_header :
  let t := {| tHead := Some [[ren_th (Some "text") None]]; tBodies := [] |} in
  let arr := [ArrayRow [JStr "a"; JStr "b"]] in
  from importers arr t
  = Ok {| tHead := tHead t;
          tBodies := [[[new_td (Some "a"); new_td (Some "b")]]] |}
  ∧ round_trip importers exporters arr t = TypeError.
Proof. vm_compute. by split. Qed.

(** The rows that [from] fails to remove come back from [to_array()] too. *)
Lemma round_trip_returns_stale_rows :
  let t := {| tHead := Some [[ren_th (Some "text") None]];
              tBodies := [[[new_td (Some "old 1")]];
                          [[new_td (Some "old 2")]]] |} in
  round_trip importers exporters [ArrayRow [JStr "new"]] t
  = Ok [[EValue (Some "old 2")]; [EValue (Some "new")]].
Proof. vm_compute. reflexivity. Qed.

(** C6, at a failing input. On a table with two bodies, [clear()] removes
    the first body only, and [from] adds the imported rows after the second
    one, which stays. *)
Theorem from_keeps_second_body :
  let old1 := [[new_td (Some "old 1")]] in
  let old2 := [[new_td (Some "old 2")]] in
  let t := {| tHead := Some [[ren_th (Some "text") None]];
              tBodies := [old1; old2] |} in
  tBodies (clear t) = [old2]
  ∧ from importers [ArrayRow [JStr "new"]] t
    = Ok {| tHead := tHead t;
            tBodies := [old2; [[new_td (Some "new")]]] |}.
Proof. vm_compute. by split. Qed.

(** ** Changes of the header row *)

(** The fourth scenario of the specification: the second of four header
    cells is removed; the update starts at column 1. *)
Example remove_second_of_four :
  header_change_regions four_cells [RemoveAt 1] = [open_region 0 1]
  ∧ earliest_affected_column four_cells [RemoveAt 1] = 1.
Proof. vm_compute. by split. Qed.

(** A batch without any element among its nodes still enqueues a region; it
    starts at column [+Infinity] and holds no cell. *)
Example text_only_batch :
  header_change_regions four_cells [InsertAt 1 (Text 7)]
  = [mk_region (Fin 0) PosInf PosInf PosInf].
Proof. vm_compute. reflexivity. Qed.

(** C7, at a failing input. From a header row of four cells the third cell
    is removed, then the second, in one batch. When the callback runs, the
    previous sibling recorded for the first removal (the second cell) is no
    longer a child of the row, [indexOf] answers -1 for it, and the update
    starts at column 0: the first column, which is unchanged and lies
    before the earliest affected column 1, is covered by the region. *)
Theorem batch_of_removals_updates_from_column_zero :
  let ops := [RemoveAt 2; RemoveAt 1] in
  let now := fst (apply_ops four_cells ops) in
  now = [Element 0; Element 3]
  ∧ snd (apply_ops four_cells ops)
    = [mk_mutation [] [Element 2] (Some (Element 1));
       mk_mutation [] [Element 1] (Some (Element 0))]
  ∧ indexOf (children now) (Element 1) = (-1)%Z
  ∧ earliest_affected_column four_cells ops = 1
  ∧ header_change_regions four_cells ops = [open_region 0 0]
  ∧ in_rectangle 0 0 (open_region 0 0) = true.
Proof. vm_compute. repeat split. Qed.

(** The same with text nodes between the cells, where one cell and the text
    node before it are removed: the previous sibling of the removed cell is
    the text node, which has no previous element sibling any more once it
    is removed itself. *)
Example removal_of_cell_and_text_node :
  let row := [Element 0; Text 1; Element 1; Text 2; Element 2] in
  let ops := [RemoveAt 2; RemoveAt 1] in
  fst (apply_ops row ops) = [Element 0; Text 2; Element 2]
  ∧ earliest_affected_column row ops = 1
  ∧ header_change_regions row ops = [open_region 0 0].
Proof. vm_compute. repeat split. Qed.

(** A batch can also start the update too far to the right: a cell is
    inserted after a text node, and the text node is then moved to the end
    of the row. The cell went in at column 2 and the update starts at
    column 4. *)
Example moved_text_node_hides_change :
  let row := [Element 0; Element 1; Text 9; Element 2] in
  let ops := [InsertAt 3 (Element 5); RemoveAt 2; InsertAt 4 (Text 9)] in
  fst (apply_ops row ops)
  = [Element 0; Element 1; Element 5; Element 2; Text 9]
  ∧ header_change_regions row ops = [open_region 0 4]
  ∧ earliest_affected_column row ops = 2.
Proof. vm_compute. repeat split. Qed.

Lemma index_from_middle i n l1 l2 :
  n ∉ l1 → index_from i n (l1 ++ n :: l2) = Z.of_nat (i + length l1).
Proof.
  revert i. induction l1 as [|x l1 IH]; intros i Hn; simpl.
  - rewrite decide_True by done. f_equal. lia.
  - apply not_elem_of_cons in Hn as [Hx Hn].
    rewrite decide_False by done. rewrite IH by done. f_equal. lia.
Qed.

Lemma children_app a b : children (a ++ b) = children a ++ children b.
Proof. apply filter_app. Qed.

Lemma children_cons_element id l :
  children (Element id :: l) = Element id :: children l.
Proof. reflexivity. Qed.

Lemma children_cons_text id l : children (Text id :: l) = children l.
Proof. reflexivity. Qed.

Lemma children_elem n l : n ∈ children l → n ∈ l.
Proof. unfold children. rewrite list_elem_of_filter. tauto. Qed.

Lemma children_NoDup l : NoDup l → NoDup (children l).
Proof. apply NoDup_filter. Qed.

Lemma prev_element_from_middle lst n l1 l2 :
  n ∉ l1 →
  prev_element_from lst n (l1 ++ n :: l2)
  = match last (children l1) with
    | Some e => Some e
    | None => lst
    end.
Proof.
  revert lst. induction l1 as [|x l1 IH]; intros lst Hn; simpl.
  - by rewrite decide_True.
  - apply not_elem_of_cons in Hn as [Hx Hn].
    rewrite decide_False by done. rewrite IH by done.
    destruct x as [id|id]; simpl.
    + rewrite children_cons_element, last_cons.
      by destruct (last (children l1)).
    + by rewrite children_cons_text.
Qed.

(** One record whose previous sibling stands at the end of [pre]: the update
    starts at the column after the elements of [pre]. *)
Lemma single_record_column pre suffix added removed :
  NoDup pre → existsb is_element (added ++ removed) = true →
  znum_to_num
    (znum_succ
       (first_prev_sibling_index (pre ++ suffix) ZInf
          [mk_mutation added removed (last pre)]))
  = Fin (length (children pre)).
Proof.
  intros Hnd Hel. cbn [first_prev_sibling_index addedNodes removedNodes
    previousSibling]. rewrite Hel.
  destruct (last pre) as [p|] eqn:Hlast.
  - apply last_Some in Hlast as [pre' ->].
    apply NoDup_app in Hnd as (Hnd' & Hdisj & _).
    assert (Hp : p ∉ pre').
    { intros Hin. apply (Hdisj p Hin). by left. }
    rewrite <- app_assoc. cbn [app].
    destruct p as [id|id]; cbn [is_element].
    + unfold indexOf. rewrite !children_app, children_cons_element.
      rewrite index_from_middle
        by (intros Hin; by apply Hp, children_elem).
      simpl. rewrite length_app. simpl. f_equal. lia.
    + unfold previousElementSibling.
      rewrite prev_element_from_middle by done.
      rewrite !children_app, children_cons_text.
      destruct (last (children pre')) as [e|] eqn:Hl.
      * apply last_Some in Hl as [c Hc]. rewrite Hc.
        pose proof (children_NoDup _ Hnd') as Hcn. rewrite Hc in Hcn.
        apply NoDup_app in Hcn as (_ & Hce & _).
        unfold indexOf. rewrite <- !app_assoc. cbn [app].
        rewrite index_from_middle
          by (intros Hin; apply (Hce e Hin); by left).
        simpl. rewrite !length_app. simpl. f_equal. lia.
      * apply last_None in Hl. rewrite Hl. reflexivity.
  - apply last_None in Hlast as ->. reflexivity.
Qed.

Lemma first_difference_app l a b :
  first_difference (l ++ a) (l ++ b) = length l + first_difference a b.
Proof.
  induction l as [|x l IH]; [done|].
  simpl. rewrite decide_True by done. by rewrite IH.
Qed.

Lemma first_difference_shift n l :
  n ∉ l → first_difference l (n :: l) = 0 ∧ first_difference (n :: l) l = 0.
Proof.
  intros Hn. destruct l as [|y l]; [done|].
  apply not_elem_of_cons in Hn as [Hy _]. simpl.
  rewrite !decide_False; done.
Qed.

(** The column of a single change of a cell is the number of cells that
    stand before it. *)
Lemma earliest_affected_column_single nodes op :
  NoDup nodes → changes_a_cell nodes op →
  earliest_affected_column nodes [op]
  = length (children (take (match op with InsertAt p _ | RemoveAt p => p end)
                        nodes)).
Proof.
  intros Hnd Hch. unfold earliest_affected_column.
  destruct op as [pos n|pos]; cbn [apply_ops apply_op changes_a_cell] in *.
  - destruct Hch as (Hel & Hn & Hpos). cbn [fst].
    rewrite <- (take_drop pos nodes) at 1.
    rewrite !children_app, first_difference_app.
    destruct n as [id|id]; [|done]. rewrite children_cons_element.
    assert (Hn' : Element id ∉ children (drop pos nodes)).
    { intros Hin. apply Hn. apply children_elem in Hin.
      rewrite <- (take_drop pos nodes). apply elem_of_app. by right. }
    destruct (first_difference_shift _ _ Hn') as [-> _]. lia.
  - destruct Hch as [id Hid]. rewrite Hid. cbn [fst].
    rewrite delete_take_drop.
    rewrite <- (take_drop pos nodes) at 1.
    rewrite (drop_S _ _ _ Hid).
    rewrite !children_app, first_difference_app, children_cons_element.
    assert (Hn' : Element id ∉ children (drop (S pos) nodes)).
    { intros Hin. apply children_elem in Hin.
      rewrite <- (take_drop pos nodes), (drop_S _ _ _ Hid) in Hnd.
      apply NoDup_app in Hnd as (_ & _ & Hnd).
      apply NoDup_cons in Hnd as [Hnd _]. done. }
    destruct (first_difference_shift _ _ Hn') as [_ ->]. lia.
Qed.

Lemma header_change_regions_single nodes op :
  NoDup nodes → changes_a_cell nodes op →
  header_change_regions nodes [op]
  = [open_region 0
       (length (children
          (take (match op with InsertAt p _ | RemoveAt p => p end) nodes)))].
Proof.
  intros Hnd Hch.
  assert (Hpre : ∀ pos, NoDup (take pos nodes)).
  { intros pos. rewrite <- (take_drop pos nodes) in Hnd.
    by apply NoDup_app in Hnd as (? & _). }
  unfold header_change_regions, on_thead_tr_children_changed,
    update_default. cbn [default].
  destruct op as [pos n|pos]; cbn [apply_ops apply_op changes_a_cell] in *.
  - destruct Hch as (Hel & Hn & Hpos). rewrite app_nil_r.
    rewrite update_regions_update.
    rewrite single_record_column; [done|apply Hpre|].
    simpl. by rewrite Hel.
  - destruct Hch as [id Hid]. rewrite Hid, app_nil_r.
    rewrite update_regions_update, delete_take_drop.
    rewrite single_record_column; [done|apply Hpre|done].
Qed.

Lemma index_from_lower_bound i n l : (-1 ≤ index_from i n l)%Z.
Proof.
  revert i. induction l as [|x l IH]; intros i; simpl; [lia|].
  destruct (decide (x = n)); [lia|apply IH].
Qed.

Lemma record_index_lower_bound now m : at_least_minus_one (record_index now m).
Proof.
  unfold record_index, indexOf.
  destruct (existsb is_element (addedNodes m ++ removedNodes m)); [|done].
  destruct (previousSibling m) as [n|]; [|simpl; lia].
  destruct (is_element n); [apply index_from_lower_bound|].
  destruct (previousElementSibling now n);
    [apply index_from_lower_bound|simpl; lia].
Qed.

Lemma znum_min_lower_bound a b :
  at_least_minus_one a → at_least_minus_one b →
  at_least_minus_one (znum_min a b).
Proof. destruct a, b; simpl; lia. Qed.

Lemma fold_min_minus_one l :
  Forall at_least_minus_one l → fold_left znum_min l (ZFin (-1)) = ZFin (-1).
Proof.
  induction 1 as [|a l Ha _ IH]; [done|]. cbn [fold_left].
  replace (znum_min (ZFin (-1)) a) with (ZFin (-1)); [done|].
  destruct a; simpl in *; [f_equal; lia|done].
Qed.

(** For any batch, the loop computes the minimum of the indices that the
    records contribute: leaving the loop at a missing sibling gives the
    same answer as going on would. *)
Lemma first_prev_sibling_index_min now acc mutations :
  at_least_minus_one acc →
  first_prev_sibling_index now acc mutations
  = fold_left znum_min (map (record_index now) mutations) acc.
Proof.
  revert acc. induction mutations as [|m rest IH]; intros acc Hacc; [done|].
  cbn [first_prev_sibling_index map fold_left].
  pose proof (record_index_lower_bound now m) as Hm.
  assert (Hbreak : record_index now m = ZFin (-1) →
            ZFin (-1) = fold_left znum_min (map (record_index now) rest)
                          (znum_min acc (record_index now m))).
  { intros ->.
    replace (znum_min acc (ZFin (-1))) with (ZFin (-1))
      by (destruct acc; simpl in *; [f_equal; lia|done]).
    symmetry. apply fold_min_minus_one, Forall_forall. intros a Ha.
    apply list_elem_of_fmap in Ha as (m' & -> & _).
    apply record_index_lower_bound. }
  assert (Hri := eq_refl (record_index now m)).
  unfold record_index in Hri at 1.
  destruct (existsb is_element (addedNodes m ++ removedNodes m)).
  - destruct (previousSibling m) as [n|]; [|by apply Hbreak].
    destruct (is_element n).
    + rewrite <- Hri in *. apply IH. by apply znum_min_lower_bound.
    + destruct (previousElementSibling now n); [|by apply Hbreak].
      rewrite <- Hri in *. apply IH. by apply znum_min_lower_bound.
  - rewrite <- Hri. replace (znum_min acc ZInf) with acc by by destruct acc.
    by apply IH.
Qed.

(** The region that any batch enqueues on a fresh table. *)
Lemma header_change_regions_min nodes ops :
  header_change_regions nodes ops
  = [mk_region (Fin 0)
       (znum_to_num
          (znum_succ
             (fold_left znum_min
                (map (record_index (fst (apply_ops nodes ops)))
                   (snd (apply_ops nodes ops))) ZInf)))
       PosInf PosInf].
Proof.
  unfold header_change_regions, on_thead_tr_children_changed,
    update_default. destruct (apply_ops nodes ops) as [now records].
  cbn [default fst snd]. rewrite update_regions_update.
  by rewrite first_prev_sibling_index_min.
Qed.

(* ===================================================================== *)
(** * Part III: further properties of the code                            *)
(* ===================================================================== *)

(** ** The queue and the pass *)

Lemma insert_entry_Permutation w e q : insert_entry w e q ≡ₚ e :: q.
Proof.
  induction q as [|cur rest IH]; cbn [insert_entry]; [done|].
  destruct (nan_gtb (region_weight cur) w); [done|].
  rewrite IH. apply Permutation_swap.
Qed.

Lemma insert_entry_sublist w e q : q `sublist_of` insert_entry w e q.
Proof.
  induction q as [|cur rest IH]; cbn [insert_entry].
  - apply sublist_nil_l.
  - destruct (nan_gtb (region_weight cur) w).
    + by apply sublist_cons.
    + by apply sublist_skip.
Qed.

(** X1. [update] adds its region and nothing else: the new queue is the old
    queue with the one entry put in somewhere, the old entries in the order
    they had. *)
Theorem update_adds_one_region :
  ∀ (rs cs re ce : num) (s : scheduler),
    update_regions (update rs cs re ce s)
    ≡ₚ mk_region rs cs re ce :: update_regions s
    ∧ update_regions s `sublist_of` update_regions (update rs cs re ce s).
Proof.
  intros rs cs re ce s. rewrite update_regions_update. split.
  - apply insert_entry_Permutation.
  - apply insert_entry_sublist.
Qed.

(** X27. After any history of the table, however many [update()] calls are
    made in a row before the pass runs, one argument list at least, exactly
    one pass is pending afterwards, while every call has added its region to
    the queue; and in that pass no cell has its [update()] called twice,
    whatever the overlap of the regions: from a store without pending
    render, every cell that the pass touches ends up with one render, and no
    cell with more. Which cells the pass touches is another matter. *)
Theorem update_schedules_once_and_pass_renders_once :
  ∀ (A : Type) (history : list (event A)) (r : region)
    (calls : list region) (rows : list (list A)),
    let s := run history in
    let s' := updates (r :: calls) s in
    let trace := snd (table_update rows s') in
    length (pending_passes s') = 1
    ∧ length (update_regions s')
      = length (update_regions s) + S (length calls)
    ∧ NoDup trace
    ∧ cell_updates trace [] = trace.
Proof.
  intros A history r calls rows s s' trace.
  split.
  { unfold s'. rewrite updates_pending_passes. unfold s.
    rewrite run_pending_passes.
    by destruct (update_handle (run history)). }
  split; [apply updates_regions_length|].
  assert (Hnd : NoDup trace) by apply scan_rows_NoDup.
  split; [done|]. by apply (cell_updates_fresh trace []).
Qed.

Lemma pos_lt_trans : Transitive pos_lt.
Proof. intros [a b] [c d] [e f]. unfold pos_lt. simpl. lia. Qed.

Lemma scan_cells_sorted i j n q : StronglySorted pos_lt (scan_cells i j n q).
Proof.
  revert j. induction n as [|n IH]; intros j; cbn [scan_cells].
  - constructor.
  - destruct (cell_matches i j q); simpl; [|apply IH].
    constructor; [apply IH|].
    apply Forall_forall. intros [r c] Hin.
    apply scan_cells_elem in Hin as (-> & Hc & _).
    right. simpl. lia.
Qed.

Lemma scan_rows_sorted {A} i (rows : list (list A)) q :
  StronglySorted pos_lt (scan_rows i rows q).
Proof.
  revert i q. induction rows as [|cells rest IH]; intros i q; cbn [scan_rows].
  - constructor.
  - destruct (drop_passed i q) as [|head tl]; [constructor|].
    destruct (num_ltb (Fin i) (row_start head)); [apply IH|].
    apply (StronglySorted_app_2 pos_lt);
      [|apply scan_cells_sorted|apply IH].
    intros [r1 c1] [r2 c2] H1 H2.
    apply scan_cells_elem in H1 as (-> & _).
    apply scan_rows_row_ge in H2. left. simpl. lia.
Qed.

(** X2. The pass calls [update()] on cells in row-major order: rows in
    ascending order of the flattened index, and the cells of a row from
    left to right. *)
Theorem pass_visits_cells_in_row_major_order :
  ∀ (A : Type) (rows : list (list A)) (s : scheduler),
    StronglySorted pos_lt (snd (table_update rows s)).
Proof. intros A rows s. apply scan_rows_sorted. Qed.

Lemma num_leb_trans a b c :
  num_leb a b = true → num_leb b c = true → num_leb a c = true.
Proof.
  destruct a, b, c; simpl; try done.
  rewrite !Nat.leb_le. lia.
Qed.

Lemma num_ltb_leb_false a b : num_ltb a b = false ↔ num_leb b a = true.
Proof.
  destruct a, b; simpl; try done.
  rewrite Nat.ltb_ge, Nat.leb_le. done.
Qed.

Lemma drop_passed_before i pre g post :
  num_leb (row_end g) (Fin i) = false →
  ∃ dropped pre', pre = dropped ++ pre'
                  ∧ drop_passed i (pre ++ g :: post) = pre' ++ g :: post.
Proof.
  intros Hg. induction pre as [|p pre IH]; cbn [drop_passed app].
  - exists [], []. by rewrite Hg.
  - destruct (num_leb (row_end p) (Fin i)).
    + destruct IH as (dropped & pre' & -> & Hd).
      by exists (p :: dropped), pre'.
    + by exists [], (p :: pre).
Qed.

Lemma cell_matches_before i c pre g post :
  Forall (λ p, num_leb (row_start p) (Fin i) = true) pre →
  num_leb (row_start g) (Fin i) = true →
  num_leb (column_start g) (Fin c) = true →
  num_ltb (Fin c) (column_end g) = true →
  cell_matches i c (pre ++ g :: post) = true.
Proof.
  intros Hpre Hrow Hc1 Hc2.
  induction Hpre as [|p pre Hp _ IH]; cbn [cell_matches app].
  - apply num_ltb_leb_false in Hrow. by rewrite Hrow, Hc1, Hc2.
  - apply num_ltb_leb_false in Hp. rewrite Hp.
    by destruct (num_leb (column_start p) (Fin c)
                 && num_ltb (Fin c) (column_end p)).
Qed.

(** A region is served in full as soon as no region queued before it starts
    at a later row. *)
Lemma scan_rows_reaches {A} i (rows : list (list A)) pre g post r c cells :
  Forall (λ p, num_leb (row_start p) (row_start g) = true) pre →
  in_rectangle r c g = true →
  i ≤ r → rows !! (r - i) = Some cells → c < length cells →
  (r, c) ∈ scan_rows i rows (pre ++ g :: post).
Proof.
  intros Hpre Hrect. unfold in_rectangle in Hrect.
  apply andb_true_iff in Hrect as [Hrect Hce].
  apply andb_true_iff in Hrect as [Hrect Hre].
  apply andb_true_iff in Hrect as [Hrs Hcs].
  revert i pre Hpre.
  induction rows as [|cells0 rest IH]; intros i pre Hpre Hir Hl Hc; [done|].
  cbn [scan_rows].
  assert (Hend : num_leb (row_end g) (Fin i) = false).
  { destruct (row_end g) as [e|]; simpl in *; [|done].
    apply Nat.ltb_lt in Hre. apply Nat.leb_gt. lia. }
  destruct (drop_passed_before i pre g post Hend)
    as (dropped & pre' & -> & ->).
  apply Forall_app in Hpre as [_ Hpre'].
  assert (Hrow : Forall (λ p, num_leb (row_start p) (Fin r) = true) pre').
  { eapply Forall_impl; [exact Hpre'|]. intros p Hp. simpl in Hp.
    exact (num_leb_trans _ _ _ Hp Hrs). }
  destruct (pre' ++ g :: post) as [|head tl] eqn:Hq;
    [by destruct pre'|].
  assert (Hhead : num_leb (row_start head) (Fin r) = true).
  { destruct pre' as [|p pre'']; injection Hq as <- _; [done|].
    by inversion Hrow. }
  assert (Hnext : i < r → (r, c) ∈ scan_rows (S i) rest (head :: tl)).
  { intros Hlt. rewrite <- Hq. apply IH; [done|lia| |done].
    replace (r - i) with (S (r - S i)) in Hl by lia. exact Hl. }
  destruct (num_ltb (Fin i) (row_start head)) eqn:Hskip.
  - apply Hnext. destruct (row_start head) as [x|]; simpl in *; [|done].
    apply Nat.ltb_lt in Hskip. apply Nat.leb_le in Hhead. lia.
  - apply elem_of_app. destruct (decide (r = i)) as [->|Hne].
    + left. apply scan_cells_elem. split; [done|]. split.
      * rewrite Nat.sub_diag in Hl. injection Hl as ->. lia.
      * rewrite <- Hq. by apply cell_matches_before.
    + right. apply Hnext. lia.
Qed.

Lemma pass_exact_on_whole_rows {A} (rows : list (list A)) q r c :
  Forall whole_rows q →
  (r, c) ∈ scan_rows 0 rows q
  ↔ cell_exists rows r c ∧ ∃ g, g ∈ q ∧ in_rectangle r c g = true.
Proof.
  intros Hq. split.
  - intros Hin. apply scan_rows_sound in Hin as [Hcell (g & Hg & H1 & H2 & H3)].
    rewrite Nat.sub_0_r in Hcell. split; [exact Hcell|].
    exists g. split; [done|].
    rewrite Forall_forall in Hq. destruct (Hq g Hg) as [_ Hend].
    unfold in_rectangle. rewrite H1, H2, H3, Hend. done.
  - intros [(cells & Hrow & Hc) (g & Hg & Hrect)].
    apply list_elem_of_split in Hg as (pre & post & ->).
    apply Forall_app in Hq as [Hpre Hq]. inversion Hq as [|? ? [Hg0 _] _]; subst.
    eapply scan_rows_reaches; eauto; [|lia|by rewrite Nat.sub_0_r].
    eapply Forall_impl; [exact Hpre|]. intros p [Hp _].
    rewrite Hp, Hg0. done.
Qed.

(** X3. When every pending region starts at the first row and has no last
    row, the pass is exact: [update()] is called on a cell if and only if
    the cell exists and lies in the rectangle of a pending region. *)
Theorem pass_is_exact_for_whole_row_regions :
  ∀ (A : Type) (rows : list (list A)) (s : scheduler) (r c : nat),
    Forall whole_rows (update_regions s) →
    (r, c) ∈ snd (table_update rows s)
    ↔ cell_exists rows r c
      ∧ ∃ g, g ∈ update_regions s ∧ in_rectangle r c g = true.
Proof. intros A rows s r c Hq. by apply pass_exact_on_whole_rows. Qed.

Lemma pass_is_exact_for_whole_row_regions_witness :
  Forall whole_rows
    (update_regions (updates [open_region 0 12; open_region 0 3]
                       new_scheduler))
  ∧ ((1, 12) ∈ snd (table_update (grid 2 13)
                      (updates [open_region 0 12; open_region 0 3]
                         new_scheduler))
     ↔ cell_exists (grid 2 13) 1 12
       ∧ ∃ g, g ∈ update_regions (updates [open_region 0 12; open_region 0 3]
                                    new_scheduler)
              ∧ in_rectangle 1 12 g = true).
Proof.
  assert (H : Forall whole_rows
                (update_regions (updates [open_region 0 12; open_region 0 3]
                                   new_scheduler))).
  { vm_compute. repeat constructor. }
  split; [exact H|].
  exact (pass_is_exact_for_whole_row_regions unit (grid 2 13) _ 1 12 H).
Defined.

Lemma updates_regions_elem calls s g :
  g ∈ update_regions (updates calls s) ↔ g ∈ calls ∨ g ∈ update_regions s.
Proof.
  revert s. induction calls as [|r calls IH]; intros s.
  - simpl. rewrite elem_of_nil. tauto.
  - change (updates (r :: calls) s) with (updates calls (update_region r s)).
    rewrite IH. unfold update_region.
    rewrite update_regions_update, insert_entry_elem, elem_of_cons.
    destruct r; simpl. tauto.
Qed.

Lemma ascending_before leb pre g post :
  ascending leb (pre ++ g :: post) = true →
  Forall (λ p, leb p g = true) pre.
Proof.
  induction pre as [|p pre IH]; [constructor|].
  cbn [app]. intros H. apply ascending_cons in H as [Hall H].
  constructor; [|by apply IH].
  rewrite Forall_forall in Hall. apply Hall, elem_of_app. right. by left.
Qed.

Lemma integer_starts_numeric g : integer_starts g → is_Some (region_weight g).
Proof.
  intros (a & b & Ha & Hb). unfold region_weight.
  rewrite Ha, Hb, weight_finite. eauto.
Qed.

(** X4. A full refresh is never lost: among calls of [update] with integer
    starts, once [update()] without arguments has been made, the pass calls
    [update()] on every cell of the table. *)
Theorem full_update_reaches_every_cell :
  ∀ (A : Type) (calls : list region) (rows : list (list A)) (r c : nat),
    Forall integer_starts calls →
    open_region 0 0 ∈ calls →
    cell_exists rows r c →
    (r, c) ∈ snd (table_update rows (updates calls new_scheduler)).
Proof.
  intros A calls rows r c Hint Hfull (cells & Hrow & Hc).
  cbn [table_update snd].
  assert (Hq : open_region 0 0
               ∈ update_regions (updates calls new_scheduler)).
  { apply updates_regions_elem. by left. }
  pose proof (updates_regions_Forall _ _ Hint) as Hints.
  assert (Hasc : ascending weight_leb
                   (update_regions (updates calls new_scheduler)) = true).
  { apply updates_ascending_weight.
    eapply Forall_impl; [exact Hint|]. apply integer_starts_numeric. }
  apply list_elem_of_split in Hq as (pre & post & Hsplit).
  rewrite Hsplit in *. apply ascending_before in Hasc.
  apply Forall_app in Hints as [Hpre _].
  eapply scan_rows_reaches; [|reflexivity|lia|by rewrite Nat.sub_0_r|done].
  apply Forall_forall. intros p Hp.
  rewrite Forall_forall in Hasc, Hpre.
  specialize (Hasc p Hp). destruct (Hpre p Hp) as (a & b & Ha & Hb).
  unfold weight_leb, region_weight in Hasc.
  rewrite Ha, Hb, weight_finite in Hasc. simpl in Hasc.
  apply Nat.leb_le in Hasc. rewrite Ha. simpl. apply Nat.leb_le.
  change (Nat.of_uint (Decimal.D0 (Decimal.D0 Decimal.Nil))) with 0 in Hasc.
  assert (10 ^ Unsigned.usize (Nat.to_uint b) ≠ 0)
    by (apply Nat.pow_nonzero; lia).
  nia.
Qed.

Lemma full_update_reaches_every_cell_witness :
  Forall integer_starts [open_region 1 10; open_region 0 0; open_region 2 0]
  ∧ open_region 0 0 ∈ [open_region 1 10; open_region 0 0; open_region 2 0]
  ∧ cell_exists (grid 3 11) 1 10
  ∧ (1, 10) ∈ snd (table_update (grid 3 11)
                     (updates [open_region 1 10; open_region 0 0;
                               open_region 2 0] new_scheduler)).
Proof.
  assert (H1 : Forall integer_starts
                 [open_region 1 10; open_region 0 0; open_region 2 0]).
  { repeat constructor; eexists _, _; split; reflexivity. }
  assert (H2 : open_region 0 0
               ∈ [open_region 1 10; open_region 0 0; open_region 2 0]).
  { right. left. }
  assert (H3 : cell_exists (grid 3 11) 1 10).
  { eexists. split; [reflexivity|]. simpl. lia. }
  split; [exact H1|]. split; [exact H2|]. split; [exact H3|].
  exact (full_update_reaches_every_cell unit _ (grid 3 11) 1 10 H1 H2 H3).
Defined.

(** ** The observers *)

Lemma whole_rows_after_update cs ce s :
  Forall whole_rows (update_regions s) →
  Forall whole_rows (update_regions (update (Fin 0) cs PosInf ce s)).
Proof.
  intros H. rewrite update_regions_update. apply Forall_forall.
  intros g Hg. apply insert_entry_elem in Hg as [->|Hg]; [done|].
  rewrite Forall_forall in H. by apply H.
Qed.

Lemma notified_whole_rows ns :
  Forall whole_rows (update_regions (snd (notified ns))).
Proof.
  unfold notified. induction ns as [|n ns IH] using rev_ind; [constructor|].
  rewrite fold_left_app. cbn [fold_left].
  destruct (fold_left notify ns (new_observers, new_scheduler)) as [o s].
  cbn [snd] in IH.
  destruct n as [nt|tr|now ms|idx]; cbn [notify].
  - unfold on_children_changed.
    destruct (decide (observed_thead o = nt)); [done|].
    destruct nt; cbn [snd]; [|done].
    by apply whole_rows_after_update.
  - unfold on_thead_children_changed. cbn.
    destruct (decide (tr = observed_thead_tr o)); cbn [snd]; [done|].
    by apply whole_rows_after_update.
  - cbn [fst snd]. by apply whole_rows_after_update.
  - cbn [fst snd on_type_changed fmap option_fmap option_map default].
    by apply whole_rows_after_update.
Qed.

(** X5. Whatever the table's own observers have enqueued (changes of the
    header section, of the header row, of its cells, and of the type of a
    header cell), the pass that follows is exact: [update()] is called on a
    cell if and only if the cell exists and lies in the rectangle of a
    pending region. *)
Theorem pass_is_exact_for_observed_changes :
  ∀ (A : Type) (ns : list notification) (rows : list (list A)) (r c : nat),
    (r, c) ∈ snd (table_update rows (snd (notified ns)))
    ↔ cell_exists rows r c
      ∧ ∃ g, g ∈ update_regions (snd (notified ns))
             ∧ in_rectangle r c g = true.
Proof.
  intros A ns rows r c. apply pass_exact_on_whole_rows, notified_whole_rows.
Qed.

(** X6. A change of the type of the header cell at column [idx] of a table
    with an empty queue makes the pass call [update()] on the cells of
    column [idx], in every row that has such a cell, and on no other cell; a
    header cell outside a table enqueues nothing. *)
Theorem type_change_rerenders_its_column :
  ∀ (A : Type) (idx : nat) (rows : list (list A)) (r c : nat),
    on_type_changed idx None = None
    ∧ ∃ s, on_type_changed idx (Some new_scheduler) = Some s
           ∧ length (pending_passes s) = 1
           ∧ ((r, c) ∈ snd (table_update rows s)
              ↔ cell_exists rows r c ∧ c = idx).
Proof.
  intros A idx rows r c. split; [done|].
  exists (update (Fin 0) (Fin idx) PosInf (Fin (idx + 1)) new_scheduler).
  split; [reflexivity|]. split; [reflexivity|].
  cbn [table_update snd].
  rewrite update_regions_update. cbn [insert_entry new_scheduler update_regions].
  rewrite pass_exact_on_whole_rows by (repeat constructor).
  split.
  - intros [Hcell (g & Hg & Hrect)]. split; [done|].
    apply list_elem_of_singleton in Hg as ->.
    unfold in_rectangle in Hrect. simpl in Hrect.
    rewrite !andb_true_iff, Nat.leb_le, Nat.ltb_lt in Hrect. lia.
  - intros [Hcell ->]. split; [done|]. eexists. split; [by left|].
    unfold in_rectangle. simpl.
    rewrite !andb_true_iff, Nat.leb_le, Nat.ltb_lt. lia.
Qed.

(** X7. The two handlers that watch the header section and the header row
    act on a change of identity only: a second notification for the same
    header section, or for the same header row, changes nothing, so a burst
    of notifications enqueues one full update. *)
Theorem header_notifications_are_idempotent :
  ∀ (new_thead new_thead_tr : option nat) (st : observers * scheduler),
    on_children_changed new_thead (on_children_changed new_thead st)
    = on_children_changed new_thead st
    ∧ ∃ st', on_thead_children_changed (Ok new_thead_tr) st = Ok st'
             ∧ on_thead_children_changed (Ok new_thead_tr) st' = Ok st'.
Proof.
  intros nt tr [o s]. split.
  - unfold on_children_changed.
    destruct (decide (observed_thead o = nt)) as [He|Hne]; simpl.
    + by rewrite decide_True.
    + destruct nt; simpl; [by rewrite decide_True|done].
  - unfold on_thead_children_changed. simpl.
    destruct (decide (tr = observed_thead_tr o)) as [He|Hne].
    + eexists. split; [reflexivity|]. simpl. by rewrite decide_True.
    + eexists. split; [reflexivity|]. simpl. by rewrite decide_True.
Qed.

(** X8. Removal is treated differently at the two levels. When the header
    section goes away, the table only forgets it: nothing is enqueued and no
    pass is scheduled. When the header row goes away from under an observed
    header section, a full update is enqueued and a pass is pending. *)
Theorem header_removal_is_asymmetric :
  ∀ (o : observers) (s : scheduler) (tr : nat),
    snd (on_children_changed None (o, s)) = s
    ∧ observed_thead (fst (on_children_changed None (o, s))) = None
    ∧ (observed_thead_tr o = Some tr →
       ∃ o' s', on_thead_children_changed (Ok None) (o, s) = Ok (o', s')
                ∧ observed_thead_tr o' = None
                ∧ open_region 0 0 ∈ update_regions s'
                ∧ is_Some (update_handle s')).
Proof.
  intros o s tr. unfold on_children_changed.
  destruct (decide (observed_thead o = None)) as [He|Hne].
  - split; [done|]. split; [done|].
    intros Htr. unfold on_thead_children_changed. cbn.
    rewrite Htr. rewrite decide_False by done.
    eexists _, _. split; [reflexivity|]. split; [done|].
    split; [|apply update_handle_set].
    unfold update_default. rewrite update_regions_update.
    apply insert_entry_elem. by left.
  - split; [done|]. split; [done|].
    intros Htr. unfold on_thead_children_changed. cbn.
    rewrite Htr. rewrite decide_False by done.
    eexists _, _. split; [reflexivity|]. split; [done|].
    split; [|apply update_handle_set].
    unfold update_default. rewrite update_regions_update.
    apply insert_entry_elem. by left.
Qed.

Lemma header_removal_is_asymmetric_witness :
  observed_thead_tr (mk_observers (Some 1) (Some 2)) = Some 2
  ∧ ∃ o' s',
      on_thead_children_changed (Ok None)
        (mk_observers (Some 1) (Some 2), new_scheduler) = Ok (o', s')
      ∧ observed_thead_tr o' = None
      ∧ open_region 0 0 ∈ update_regions s'
      ∧ is_Some (update_handle s').
Proof.
  split; [reflexivity|].
  exact (proj2 (proj2 (header_removal_is_asymmetric
                         (mk_observers (Some 1) (Some 2)) new_scheduler 2))
           eq_refl).
Defined.

(** ** Changes of the header row, continued *)

Lemma fold_min_reaches_minus_one l acc :
  at_least_minus_one acc → Forall at_least_minus_one l → ZFin (-1) ∈ l →
  fold_left znum_min l acc = ZFin (-1).
Proof.
  revert acc. induction l as [|a l IH]; intros acc Hacc Hall Hin.
  - by apply elem_of_nil in Hin.
  - inversion Hall as [|? ? Ha Hl]; subst. cbn [fold_left].
    apply elem_of_cons in Hin as [<-|Hin].
    + replace (znum_min acc (ZFin (-1))) with (ZFin (-1))
        by (destruct acc; simpl in *; [f_equal; lia|done]).
      by apply fold_min_minus_one.
    + apply IH; [by apply znum_min_lower_bound|done|done].
Qed.

(** X9. If one record of the batch adds or removes an element and has no
    previous sibling (the first cell of the row changed), the update covers
    every column, whatever else the batch holds. *)
Theorem change_at_first_cell_updates_all_columns :
  ∀ (now : list node) (mutations : list mutation) (m : mutation),
    m ∈ mutations → structural m = true → previousSibling m = None →
    update_regions
      (on_thead_tr_children_changed now mutations new_scheduler)
    = [open_region 0 0].
Proof.
  intros now ms m Hin Hs Hprev.
  unfold on_thead_tr_children_changed, update_default. cbn [default].
  rewrite update_regions_update.
  rewrite first_prev_sibling_index_min by done.
  rewrite (fold_min_reaches_minus_one _ ZInf); [done|done| |].
  - apply Forall_forall. intros a Ha.
    apply list_elem_of_fmap in Ha as (m' & -> & _).
    apply record_index_lower_bound.
  - apply list_elem_of_fmap. exists m. split; [|done].
    unfold record_index. unfold structural in Hs. by rewrite Hs, Hprev.
Qed.

Lemma change_at_first_cell_updates_all_columns_witness :
  mk_mutation [] [Element 0] None
  ∈ [mk_mutation [Element 9] [] (Some (Element 2));
     mk_mutation [] [Element 0] None]
  ∧ structural (mk_mutation [] [Element 0] None) = true
  ∧ previousSibling (mk_mutation [] [Element 0] None) = None
  ∧ update_regions
      (on_thead_tr_children_changed
         [Element 1; Element 2; Element 9; Element 3]
         [mk_mutation [Element 9] [] (Some (Element 2));
          mk_mutation [] [Element 0] None] new_scheduler)
    = [open_region 0 0].
Proof.
  assert (H : mk_mutation [] [Element 0] None
              ∈ [mk_mutation [Element 9] [] (Some (Element 2));
                 mk_mutation [] [Element 0] None]).
  { right. left. }
  split; [exact H|]. split; [reflexivity|]. split; [reflexivity|].
  exact (change_at_first_cell_updates_all_columns _ _ _ H eq_refl eq_refl).
Defined.

(** X28. A batch of exactly one record, for the insertion of a new element
    or the removal of an element of the header row at column [k], enqueues
    the region of all rows and of the columns from [k] on, with unbounded
    ends: [k] is the earliest column at which the header row differs from
    what it was, the column immediately after the previous element sibling
    of the change. *)
Theorem single_header_change_updates_from_its_column :
  ∀ (nodes : list node) (op : dom_op),
    NoDup nodes → changes_a_cell nodes op →
    header_change_regions nodes [op]
    = [mk_region (Fin 0) (Fin (earliest_affected_column nodes [op]))
         PosInf PosInf].
Proof.
  intros nodes op Hnd Hch.
  rewrite earliest_affected_column_single by done.
  by apply header_change_regions_single.
Qed.

Lemma single_header_change_updates_from_its_column_witness :
  NoDup four_cells ∧ changes_a_cell four_cells (RemoveAt 1)
  ∧ header_change_regions four_cells [RemoveAt 1]
    = [mk_region (Fin 0)
         (Fin (earliest_affected_column four_cells [RemoveAt 1]))
         PosInf PosInf].
Proof.
  assert (Hnd : NoDup four_cells).
  { apply (bool_decide_unpack _). vm_compute. exact I. }
  assert (Hch : changes_a_cell four_cells (RemoveAt 1)).
  { exists 1. reflexivity. }
  split; [exact Hnd|]. split; [exact Hch|].
  exact (single_header_change_updates_from_its_column four_cells
           (RemoveAt 1) Hnd Hch).
Defined.

Lemma scan_rows_no_column {A} i (rows : list (list A)) g :
  column_start g = PosInf → row_end g = PosInf → scan_rows i rows [g] = [].
Proof.
  intros Hc He. revert i. induction rows as [|cells rest IH]; intros i;
    [done|].
  cbn [scan_rows drop_passed]. rewrite He. cbn [num_leb].
  destruct (num_ltb (Fin i) (row_start g)) eqn:Hrow; [apply IH|].
  rewrite IH, app_nil_r.
  generalize 0. induction (length cells) as [|n IHn]; intros j; [done|].
  cbn [scan_cells cell_matches]. rewrite Hrow, Hc. cbn [num_leb andb app].
  apply IHn.
Qed.

(** X10. A batch in which no record adds or removes an element (text nodes
    only) still enqueues a region and schedules a pass, but the region
    starts at column [+Infinity]: the pass calls [update()] on no cell. *)
Theorem batch_without_elements_renders_nothing :
  ∀ (A : Type) (now : list node) (mutations : list mutation)
    (rows : list (list A)),
    Forall (λ m, structural m = false) mutations →
    let s := on_thead_tr_children_changed now mutations new_scheduler in
    update_regions s = [mk_region (Fin 0) PosInf PosInf PosInf]
    ∧ length (pending_passes s) = 1
    ∧ snd (table_update rows s) = [].
Proof.
  intros A now ms rows Hms s.
  assert (Hq : update_regions s = [mk_region (Fin 0) PosInf PosInf PosInf]).
  { unfold s, on_thead_tr_children_changed, update_default. cbn [default].
    rewrite update_regions_update.
    rewrite first_prev_sibling_index_min by done.
    replace (fold_left znum_min (map (record_index now) ms) ZInf) with ZInf;
      [done|].
    induction Hms as [|m ms Hm _ IH]; [done|].
    cbn [map fold_left]. unfold record_index at 2.
    unfold structural in Hm. by rewrite Hm. }
  split; [exact Hq|]. split; [reflexivity|].
  cbn [table_update snd]. rewrite Hq. by apply scan_rows_no_column.
Qed.

Lemma batch_without_elements_renders_nothing_witness :
  Forall (λ m, structural m = false) [mk_mutation [Text 7] [] None]
  ∧ let s := on_thead_tr_children_changed four_cells
               [mk_mutation [Text 7] [] None] new_scheduler in
    update_regions s = [mk_region (Fin 0) PosInf PosInf PosInf]
    ∧ length (pending_passes s) = 1
    ∧ snd (table_update (grid 2 4) s) = [].
Proof.
  assert (H : Forall (λ m, structural m = false)
                [mk_mutation [Text 7] [] None]).
  { repeat constructor. }
  split; [exact H|].
  exact (batch_without_elements_renders_nothing unit four_cells _
           (grid 2 4) H).
Defined.

(** ** [clear], [from], [to_array] and [data], continued *)

Lemma odd_entries_length {A} (l : list A) :
  length (odd_entries l) = Nat.div2 (length l)
  ∧ ∀ a, length (odd_entries (a :: l)) = Nat.div2 (S (length l)).
Proof.
  induction l as [|b l [IH1 IH2]]; [by split|]. split.
  - apply IH2.
  - intros a. cbn [odd_entries length Nat.div2]. by rewrite IH1.
Qed.

Lemma clear_iter_length n t :
  length (tBodies (Nat.iter n clear t)) ≤ length (tBodies t) - n.
Proof.
  induction n as [|n IH]; [simpl; lia|].
  change (Nat.iter (S n) clear t) with (clear (Nat.iter n clear t)).
  rewrite clear_tBodies, (proj1 (odd_entries_length _)).
  set (m := length (tBodies (Nat.iter n clear t))) in *.
  assert (Nat.div2 m ≤ m - 1).
  { destruct m as [|m]; [done|].
    pose proof (Nat.div2_decr (S m) m (le_n _)). lia. }
  lia.
Qed.

(** X11. [clear()] keeps the header and leaves half of the bodies, rounded
    down: it empties a table of at most one body, and no table of two bodies
    or more. As many calls as there were bodies always empty the table. *)
Theorem clear_halves_the_bodies :
  ∀ (t : table),
    tHead (clear t) = tHead t
    ∧ length (tBodies (clear t)) = Nat.div2 (length (tBodies t))
    ∧ (tBodies (clear t) = [] ↔ length (tBodies t) ≤ 1)
    ∧ tBodies (Nat.iter (length (tBodies t)) clear t) = [].
Proof.
  intros t. split; [done|].
  rewrite clear_tBodies. split; [apply odd_entries_length|]. split.
  - destruct (tBodies t) as [|a [|b l]]; simpl; split; try done; lia.
  - pose proof (clear_iter_length (length (tBodies t)) t) as H.
    destruct (tBodies (Nat.iter (length (tBodies t)) clear t)); [done|].
    simpl in H. lia.
Qed.

(** X12. Under a header row, [from] returns whenever no column type names a
    member of [Object.prototype] that the importers do not override, and
    whenever it returns it leaves the header as it was and the imported rows
    as the last body, one row per entry and in the order of the entries.
    The row made for an array has as many cells as the array has entries,
    whatever the width of the header; the row made for an object has one
    cell per cell of the header row, whatever the object holds. *)
Theorem from_builds_one_row_per_entry :
  ∀ (imp : gmap string importer) (arr : list jsrow) (t : table)
    (children : list th) (rows : list (list th)),
    tHead t = Some (children :: rows) →
    (Forall (λ h, own_or_absent imp (registry_key (th_type h)))
       (header_of t) →
     ∃ t', from imp arr t = Ok t')
    ∧ ∀ t', from imp arr t = Ok t' →
        ∃ body,
          tHead t' = tHead t
          ∧ tBodies t' = odd_entries (tBodies t) ++ [body]
          ∧ length body = length arr
          ∧ ∀ i row, arr !! i = Some row →
              ∃ tds, body !! i = Some tds
                     ∧ length tds = match row with
                                    | ArrayRow items => length items
                                    | ObjectRow _ _ => length (header_of t)
                                    end.
Proof.
  intros imp arr t children rows Hh. split.
  { intros Hall. eexists. exact (from_own_or_absent _ _ _ _ _ Hh Hall). }
  intros t' Hfrom. rewrite (from_with_header_row _ _ _ _ _ Hh) in Hfrom.
  apply bind_Ok in Hfrom as (body & Hbody & [= <-]).
  exists body. split; [done|]. split; [done|].
  apply traverse_Ok_inv in Hbody as [Hlen Hall]. split; [done|].
  intros i row Hrow. destruct (Hall i row Hrow) as (tds & Htds & Hi).
  exists tds. split; [done|].
  destruct row as [items|own inherited]; simpl in Htds.
  - by apply import_array_row_lookup in Htds as [-> _].
  - apply import_object_row_lookup in Htds as [-> _]. by rewrite length_map.
Qed.

Lemma from_builds_one_row_per_entry_witness :
  tHead sample_table = Some (header_children sample_table :: [])
  ∧ ∃ t',
      from importers [ArrayRow [JStr "a"]; ObjectRow ∅ ∅] sample_table
      = Ok t'
      ∧ ∃ body,
          tHead t' = tHead sample_table
          ∧ tBodies t' = odd_entries (tBodies sample_table) ++ [body]
          ∧ length body = 2.
Proof.
  split; [reflexivity|].
  destruct (from_builds_one_row_per_entry importers
              [ArrayRow [JStr "a"]; ObjectRow ∅ ∅] sample_table
              (header_children sample_table) [] eq_refl) as [Hret Hshape].
  destruct Hret as [t' Ht'].
  { apply (bool_decide_unpack _). vm_compute. exact I. }
  exists t'. split; [exact Ht'|].
  destruct (Hshape t' Ht') as (body & H1 & H2 & H3 & _).
  exists body. repeat split; assumption.
Defined.

(** Under a column type that names an inherited member which throws, [from]
    throws although the table has a header row. *)
Example from_throws_under_inherited_type :
  from importers [ArrayRow [JStr "a"]]
    {| tHead := Some [[ren_th (Some "hasOwnProperty") None]];
       tBodies := [] |}
  = TypeError.
Proof. vm_compute. reflexivity. Qed.

Lemma header_of_same_head t1 t2 :
  tHead t1 = tHead t2 → header_of t1 = header_of t2.
Proof.
  unfold header_of, header_cells, header_row. by intros ->.
Qed.

(** X13. On a table with at most one body, an import replaces the import
    before it: when [from(a1)] returns, [from(a2)] after it does what
    [from(a2)] alone does, and leaves the table that it alone leaves. *)
Theorem from_replaces_previous_import :
  ∀ (imp : gmap string importer) (a1 a2 : list jsrow) (t : table),
    length (tBodies t) ≤ 1 →
    (t1 ← from imp a1 t; from imp a2 t1) = (_ ← from imp a1 t; from imp a2 t).
Proof.
  intros imp a1 a2 t Hlen.
  destruct (tHead t) as [[|children rows]|] eqn:Hh.
  - by rewrite (from_without_header_row imp a1 t) by by right.
  - rewrite (from_with_header_row imp a1 t children rows Hh).
    destruct (traverse _ a1) as [body|]; [|done].
    unfold mbind, result_bind.
    set (t1 := {| tHead := tHead t; tBodies := _ |}).
    assert (tHead t1 = Some (children :: rows)) as Hh1 by done.
    rewrite (from_with_header_row imp a2 t1 children rows Hh1).
    rewrite (from_with_header_row imp a2 t children rows Hh).
    rewrite (header_of_same_head t1 t) by done.
    destruct (traverse _ a2) as [body2|]; [|done].
    unfold mbind, result_bind. unfold t1. cbn [tHead tBodies].
    rewrite !odd_entries_short; [done|done|].
    rewrite length_app, odd_entries_short by done. simpl. lia.
  - by rewrite (from_without_header_row imp a1 t) by by left.
Qed.

Lemma from_replaces_previous_import_witness :
  length (tBodies sample_table) ≤ 1
  ∧ (t1 ← from importers [ArrayRow [JStr "a"]] sample_table;
     from importers [ArrayRow [JStr "b"]] t1)
    = (_ ← from importers [ArrayRow [JStr "a"]] sample_table;
       from importers [ArrayRow [JStr "b"]] sample_table).
Proof.
  assert (H : length (tBodies sample_table) ≤ 1) by (simpl; lia).
  split; [exact H|].
  exact (from_replaces_previous_import importers [ArrayRow [JStr "a"]]
           [ArrayRow [JStr "b"]] sample_table H).
Defined.

(** When [from(a1)] throws, the sequence throws, whatever [from(a2)] alone
    does. *)
Example failed_import_is_not_replaced :
  let t := {| tHead := Some [[ren_th (Some "valueOf") None]];
              tBodies := [] |} in
  (t1 ← from importers [ArrayRow [JStr "a"]] t; from importers [] t1)
  = TypeError
  ∧ from importers [] t = Ok {| tHead := tHead t; tBodies := [[]] |}.
Proof. vm_compute. by split. Qed.

Lemma traverse_TypeError {A B} (f : A → result B) (l : list A) a :
  a ∈ l → f a = TypeError → traverse f l = TypeError.
Proof.
  intros Hin Hf. induction l as [|x l IH]; [by apply elem_of_nil in Hin|].
  cbn [traverse]. apply elem_of_cons in Hin as [<-|Hin].
  - by rewrite Hf.
  - destruct (f x); [|done]. unfold mbind, result_bind. by rewrite IH.
Qed.

Lemma itraverse_TypeError {A B} (f : nat → A → result B) idx l i a :
  l !! i = Some a → f (idx + i) a = TypeError →
  itraverse f idx l = TypeError.
Proof.
  revert idx i. induction l as [|x l IH]; intros idx i Hl Hf; [done|].
  cbn [itraverse]. destruct i as [|i].
  - injection Hl as ->. rewrite Nat.add_0_r in Hf. by rewrite Hf.
  - destruct (f idx x); [|done]. unfold mbind, result_bind.
    rewrite (IH (S idx) i); [done|done|].
    by replace (S idx + i) with (idx + S i) by lia.
Qed.

Lemma export_cell_header_children exp t idx c :
  export_cell exp t idx c
  = match header_children t !! idx with
    | Some h =>
        match registry_get exp (default "text" (th_type h)) with
        | Some (Own f) => Ok (f c (Some h))
        | Some (Inherited name) => inherited_export name c
        | None => Ok (EValue (td_value c))
        end
    | None => TypeError
    end.
Proof.
  unfold export_cell, header_children, td_type, td_header, table_header,
    header_row.
  destruct (tHead t) as [[|children rows]|]; simpl; [done| |done].
  destruct (children !! idx) as [h|]; simpl; [|done].
  by destruct (registry_get exp (default "text" (th_type h))) as [[f|n]|].
Qed.

(** X14. [to_array()] throws when some row has more cells than the header
    row has children (none at all when the table has no header row). Where
    no child of the header row has a type that names a member of
    [Object.prototype] which the exporters do not override, it returns
    normally in every other case: one entry per row of the flattened
    bodies, in order, and one value per cell, what the exporter of the
    column makes of the cell, or the raw value. *)
Theorem to_array_succeeds_iff_rows_fit :
  ∀ (exp : gmap string exporter) (t : table),
    (¬ rows_within (length (header_children t)) (tBodies t) →
     to_array exp t = TypeError)
    ∧ (Forall (λ h, own_or_absent exp (default "text" (th_type h)))
         (header_children t) →
       rows_within (length (header_children t)) (tBodies t) →
       to_array exp t
       = Ok (map (imap (exported_as exp (header_children t)))
               (concat (tBodies t)))).
Proof.
  intros exp t. unfold to_array, rows_within. split.
  - intros Hnot. apply not_Forall_Exists in Hnot; [|apply _].
    apply Exists_exists in Hnot as (body & Hbody & Hnot).
    apply not_Forall_Exists in Hnot; [|apply _].
    apply Exists_exists in Hnot as (row & Hrow & Hlen). simpl in Hlen.
    rewrite (traverse_TypeError _ _ body Hbody); [done|].
    apply (traverse_TypeError _ _ row Hrow).
    destruct (lookup_lt_is_Some_2 row (length (header_children t)))
      as [c Hc]; [lia|].
    apply (itraverse_TypeError _ 0 row _ c Hc). simpl.
    rewrite export_cell_header_children.
    by rewrite (lookup_ge_None_2 (header_children t)).
  - intros Hown Hfit.
    rewrite (traverse_Ok _
               (map (imap (exported_as exp (header_children t))))).
    + unfold mbind, result_bind. f_equal. clear Hfit.
      induction (tBodies t) as [|b bs IH]; [done|].
      simpl. by rewrite map_app, IH.
    + intros body Hbody. apply traverse_Ok. intros row Hrow.
      rewrite Forall_forall in Hfit. specialize (Hfit body Hbody).
      rewrite Forall_forall in Hfit. specialize (Hfit row Hrow).
      rewrite (itraverse_Ok _ (exported_as exp (header_children t)));
        [done|].
      intros i c Hc. simpl. rewrite export_cell_header_children.
      apply lookup_lt_Some in Hc.
      destruct (lookup_lt_is_Some_2 (header_children t) i) as [h Hi];
        [lia|].
      unfold exported_as. rewrite Hi.
      rewrite (registry_get_own_or_absent exp _
                 (Forall_lookup_1 _ _ _ _ Hown Hi)).
      by destruct (exp !! default "text" (th_type h)).
Qed.

Lemma to_array_succeeds_iff_rows_fit_witness :
  let t := {| tHead := tHead sample_table;
              tBodies := [[[new_td (Some "a"); new_td (Some "30")]];
                          [[new_td None]]] |} in
  Forall (λ h, own_or_absent exporters (default "text" (th_type h)))
    (header_children t)
  ∧ rows_within (length (header_children t)) (tBodies t)
  ∧ to_array exporters t
    = Ok [[EValue (Some "a"); EQuot (Some "30") MaxDefault];
          [EValue None]].
Proof.
  intros t.
  assert (H1 : Forall (λ h, own_or_absent exporters
                              (default "text" (th_type h)))
                 (header_children t)).
  { apply (bool_decide_unpack _). vm_compute. exact I. }
  assert (H2 : rows_within (length (header_children t)) (tBodies t)).
  { unfold rows_within. repeat constructor; simpl; lia. }
  split; [exact H1|]. split; [exact H2|].
  rewrite (proj2 (to_array_succeeds_iff_rows_fit exporters t) H1 H2).
  vm_compute. reflexivity.
Defined.

(** A row that is too long, and a column type that names an inherited
    member which throws: [to_array()] throws in both cases. *)
Example to_array_throws :
  to_array exporters
    {| tHead := Some [[ren_th None None]];
       tBodies := [[[new_td None; new_td None]]] |} = TypeError
  ∧ to_array exporters
      {| tHead := Some [[ren_th (Some "__proto__") None]];
         tBodies := [[[new_td None]]] |} = TypeError.
Proof. vm_compute. by split. Qed.

Lemma importers_lookup k :
  importers !! k
  = if decide (k = "check") then Some import_check
    else if decide (k = "progress") then Some import_progress else None.
Proof.
  unfold importers. rewrite !lookup_insert, lookup_empty.
  repeat case_decide; congruence.
Qed.

Lemma exporters_lookup k :
  exporters !! k
  = if decide (k = "check") then Some export_check
    else if decide (k = "progress") then Some export_progress else None.
Proof.
  unfold exporters. rewrite !lookup_insert, lookup_empty.
  repeat case_decide; congruence.
Qed.

(** X15. What the built-in handlers make of one value [v] on its way in and
    out again, by the type [ty] that the [ren-th] header cell declares: a
    check column returns the truthiness of [v] as a boolean; a progress
    column returns the quotient of [String(v ?? "0")] by the header's [max]
    (by 100 without one); a column of type [toString] returns the string
    ["[object Undefined]"] and a column of type [constructor] the cell
    element itself, imported from [Object(v)]; under any other name of a
    member of [Object.prototype] the round trip throws; any other column
    returns the string [String(v ?? '')], so that numbers and booleans come
    back as text. *)
Theorem round_trip_by_column_type :
  ∀ (ty name max : option string) (v : jsval),
    let h := mk_th RenHeader ty name max in
    let t := {| tHead := Some [[h]]; tBodies := [] |} in
    round_trip importers exporters [ArrayRow [v]] t
    = if decide (default "text" ty = "check")
      then Ok [[EBool (truthy v)]]
      else if decide (default "text" ty = "progress")
      then Ok [[EQuot (Some (to_String (nullish_or v (JStr "0"))))
                  (match max with
                   | Some m => MaxAttr m
                   | None => MaxDefault
                   end)]]
      else if decide (default "text" ty = "toString")
      then Ok [[EValue (Some "[object Undefined]")]]
      else if decide (default "text" ty = "constructor")
      then Ok [[EElement (new_td (Some (to_String (js_Object v))))]]
      else if bool_decide (default "text" ty ∈ object_prototype_names)
      then TypeError
      else Ok [[EValue (Some (to_String (nullish_or v (JStr ""))))]].
Proof.
  intros ty name max v h t.
  destruct (decide (default "text" ty ∈ object_prototype_names)) as [Hin|Hn].
  - destruct ty as [k|]; cbn [from_option id] in Hin;
      [|exfalso; revert Hin; apply (bool_decide_unpack _); by vm_compute].
    subst h t. cbn [from_option id].
    repeat (apply elem_of_cons in Hin as [->|Hin]);
      [..|by apply elem_of_nil in Hin];
      destruct v; vm_compute; reflexivity.
  - rewrite (round_trip_within_header importers exporters _ t [h] []);
      [|done|simpl; lia| | |repeat constructor; simpl; lia].
    + rewrite (bool_decide_eq_false_2 _ Hn).
      cbn [map imap imported_row]. unfold exported_as, imported_value.
      replace (header_of t) with [h] by done.
      cbn [lookup list_lookup map type_at mjoin option_join fmap list_fmap
           th_type th_kind h th_type_attr default option_ret option_bind
           mbind registry_key].
      simpl. rewrite importers_lookup, exporters_lookup.
      repeat case_decide; try done;
        try (exfalso; apply Hn; match goal with
                                | H : default "text" ty = _ |- _ =>
                                    rewrite H
                                end;
             apply (bool_decide_unpack _); by vm_compute).
      unfold export_check, import_check, value_truthy. simpl.
      by destruct (truthy v).
    + replace (header_of t) with [h] by done.
      constructor; [right; exact Hn|constructor].
    + constructor; [right; exact Hn|constructor].
Qed.

(** X16. On a table with one body, [data(row, column)] returns the value of
    the cell at that row and column, and [data(row)] the values of the row;
    a row or a column that does not exist makes it throw. *)
Theorem data_reads_single_body :
  ∀ (t : table) (body : list (list td)) (row column : nat),
    tBodies t = [body] →
    data t row (Some column)
    = match body !! row ≫= (λ cells, cells !! column) with
      | Some cell => Ok (DataValue (td_value cell))
      | None => TypeError
      end
    ∧ data t row None
      = match body !! row with
        | Some cells => Ok (DataRow (map td_value cells))
        | None => TypeError
        end.
Proof.
  intros t body row column Hb. unfold data. rewrite Hb.
  cbn [data_row].
  destruct (Nat.leb_spec (length body) row) as [Hge|Hlt].
  - rewrite (lookup_ge_None_2 body row) by done. by split.
  - destruct (lookup_lt_is_Some_2 body row Hlt) as [cells Hc].
    rewrite Hc. simpl. split; [|done].
    by destruct (cells !! column).
Qed.

Lemma data_reads_single_body_witness :
  tBodies {| tHead := None;
             tBodies := [[[new_td (Some "a"); new_td (Some "b")]]] |}
  = [[[new_td (Some "a"); new_td (Some "b")]]]
  ∧ data {| tHead := None;
            tBodies := [[[new_td (Some "a"); new_td (Some "b")]]] |}
      0 (Some 1) = Ok (DataValue (Some "b"))
  ∧ data {| tHead := None;
            tBodies := [[[new_td (Some "a"); new_td (Some "b")]]] |}
      1 None = TypeError.
Proof.
  split; [reflexivity|].
  pose proof (data_reads_single_body
                {| tHead := None;
                   tBodies := [[[new_td (Some "a"); new_td (Some "b")]]] |}
                [[new_td (Some "a"); new_td (Some "b")]] 0 1 eq_refl)
    as [H1 _].
  pose proof (data_reads_single_body
                {| tHead := None;
                   tBodies := [[[new_td (Some "a"); new_td (Some "b")]]] |}
                [[new_td (Some "a"); new_td (Some "b")]] 1 0 eq_refl)
    as [_ H2].
  split; [exact H1|exact H2].
Defined.

Lemma data_row_every_body bodies row tr :
  Forall (λ b : list (list td), row < length b) bodies →
  data_row bodies row tr
  = match last bodies with
    | Some b => b !! row
    | None => tr
    end.
Proof.
  revert tr. induction bodies as [|b bodies IH]; intros tr Hall; [done|].
  inversion Hall as [|? ? Hb Hbs]; subst. cbn [data_row].
  destruct (Nat.leb_spec (length b) row); [lia|].
  rewrite IH by done. rewrite last_cons.
  by destruct (last bodies).
Qed.

(** X17. The loop of [data] goes on after it has found the row. With
    several bodies, a row index that is below the length of every body is
    answered from the last body, while the row of that index in the
    flattened bodies is in the first. *)
Theorem data_reads_the_last_body :
  ∀ (t : table) (first : list (list td)) (others : list (list (list td)))
    (row : nat),
    tBodies t = first :: others →
    Forall (λ b, row < length b) (first :: others) →
    data_row (tBodies t) row None = last (first :: others) ≫= (.!! row)
    ∧ concat (tBodies t) !! row = first !! row.
Proof.
  intros t first others row Hb Hall. rewrite Hb. split.
  - rewrite data_row_every_body by done.
    by destruct (last (first :: others)).
  - inversion Hall; subst. simpl. by rewrite lookup_app_l.
Qed.

Lemma data_reads_the_last_body_witness :
  tBodies {| tHead := None;
             tBodies := [[[new_td (Some "first")]];
                         [[new_td (Some "second")]]] |}
  = [[new_td (Some "first")]] :: [[[new_td (Some "second")]]]
  ∧ Forall (λ b : list (list td), 0 < length b)
      ([[new_td (Some "first")]] :: [[[new_td (Some "second")]]])
  ∧ data_row [[[new_td (Some "first")]]; [[new_td (Some "second")]]] 0 None
    = Some [new_td (Some "second")]
  ∧ concat [[[new_td (Some "first")]]; [[new_td (Some "second")]]] !! 0
    = Some [new_td (Some "first")].
Proof.
  assert (H : Forall (λ b : list (list td), 0 < length b)
                ([[new_td (Some "first")]] :: [[[new_td (Some "second")]]])).
  { repeat constructor. }
  split; [reflexivity|]. split; [exact H|].
  exact (data_reads_the_last_body
           {| tHead := None;
              tBodies := [[[new_td (Some "first")]];
                          [[new_td (Some "second")]]] |}
           _ _ 0 eq_refl H).
Defined.

Lemma data_row_beyond bodies row tr :
  length (concat bodies) ≤ row → data_row bodies row tr = tr.
Proof.
  revert row. induction bodies as [|b bodies IH]; intros row Hrow; [done|].
  cbn [data_row]. simpl in Hrow. rewrite length_app in Hrow.
  destruct (Nat.leb_spec (length b) row); [|lia].
  apply IH. lia.
Qed.

Lemma data_row_in_last front lastb k tr :
  k < length lastb →
  data_row (front ++ [lastb]) (length (concat front) + k) tr = lastb !! k.
Proof.
  revert tr. induction front as [|b front IH]; intros tr Hk.
  - simpl. by destruct (Nat.leb_spec (length lastb) k); [lia|].
  - cbn [app data_row]. simpl. rewrite length_app.
    destruct (Nat.leb_spec (length b) (length b + length (concat front) + k));
      [|lia].
    replace (length b + length (concat front) + k - length b)
      with (length (concat front) + k) by lia.
    by apply IH.
Qed.

(** X18. Whatever the number of bodies, [data] finds the right row when the
    index falls into the last body, and throws when the index is beyond the
    last row of the table. *)
Theorem data_is_right_in_the_last_body :
  ∀ (t : table) (front : list (list (list td))) (lastb : list (list td))
    (k row : nat) (column : option nat),
    tBodies t = front ++ [lastb] →
    (k < length lastb →
     data_row (tBodies t) (length (concat front) + k) None
     = concat (tBodies t) !! (length (concat front) + k))
    ∧ (length (concat (tBodies t)) ≤ row → data t row column = TypeError).
Proof.
  intros t front lastb k row column Hb. split.
  - intros Hk. rewrite Hb, data_row_in_last by done.
    rewrite concat_app, lookup_app_r by lia.
    replace (length (concat front) + k - length (concat front)) with k by lia.
    simpl. by rewrite app_nil_r.
  - intros Hrow. unfold data. by rewrite data_row_beyond.
Qed.

Lemma data_is_right_in_the_last_body_witness :
  tBodies {| tHead := None;
             tBodies := [[[new_td (Some "a")]]; [[new_td (Some "b")];
                                                 [new_td (Some "c")]]] |}
  = [[[new_td (Some "a")]]] ++ [[[new_td (Some "b")]; [new_td (Some "c")]]]
  ∧ data_row [[[new_td (Some "a")]]; [[new_td (Some "b")];
                                      [new_td (Some "c")]]] 2 None
    = Some [new_td (Some "c")]
  ∧ data {| tHead := None;
            tBodies := [[[new_td (Some "a")]]; [[new_td (Some "b")];
                                                [new_td (Some "c")]]] |}
      3 None = TypeError.
Proof.
  split; [reflexivity|].
  pose proof (data_is_right_in_the_last_body
                {| tHead := None;
                   tBodies := [[[new_td (Some "a")]]; [[new_td (Some "b")];
                                                       [new_td (Some "c")]]] |}
                [[[new_td (Some "a")]]]
                [[new_td (Some "b")]; [new_td (Some "c")]]
                1 3 None eq_refl) as [H1 H2].
  split; [apply H1; simpl; lia|apply H2; simpl; lia].
Defined.

(** ** Rendering and the registries, continued *)

Lemma renderers_lookup k :
  renderers !! k
  = if decide (k = "text") then Some render_text
    else if decide (k = "check") then Some render_check
    else if decide (k = "progress") then Some render_progress
    else if decide (k = "img") then Some render_img else None.
Proof.
  unfold renderers. rewrite !lookup_insert, lookup_empty.
  repeat case_decide; congruence.
Qed.

(** X19. With the built-in renderers, the render of a cell whose type has
    resolved to [ty] has one of four outcomes: for [text], [check],
    [progress] and [img] it returns and logs nothing; for [constructor]
    and [toString] it returns, logs nothing and leaves the cell as it was;
    for every other name of a member of [Object.prototype] it throws; for
    every other type it returns, shows the raw value as text and logs one
    warning naming the type. *)
Theorem render_outcome_by_type :
  ∀ (t : option table) (idx : nat) (c : td)
    (console : list (string * string)) (ty : string),
    td_type t idx = Ok ty →
    (ty ∈ ["text"; "check"; "progress"; "img"] →
     ∃ shown,
       td_update renderers t idx c console
       = Ok (with_content c shown, console))
    ∧ (ty ∈ ["constructor"; "toString"] →
       td_update renderers t idx c console = Ok (c, console))
    ∧ (ty ∈ object_prototype_names → ty ∉ ["constructor"; "toString"] →
       td_update renderers t idx c console = TypeError)
    ∧ (ty ∉ ["text"; "check"; "progress"; "img"] →
       ty ∉ object_prototype_names →
       td_update renderers t idx c console
       = Ok (with_content c (CText (default "" (td_value c))),
             console ++ [missing_renderer_warning ty])).
Proof.
  intros t idx c console ty Hty.
  assert (ty ∈ object_prototype_names → renderers !! ty = None) as Hnone.
  { intros Hin. repeat (apply elem_of_cons in Hin as [->|Hin]);
      [..|by apply elem_of_nil in Hin]; reflexivity. }
  split; [|split; [|split]].
  - intros Hin.
    assert (is_Some (renderers !! ty)) as [f Hf].
    { repeat (apply elem_of_cons in Hin as [->|Hin]);
        [..|by apply elem_of_nil in Hin]; by eexists. }
    destruct (td_update_registered renderers t idx c console ty f Hty Hf)
      as (h & _ & ->). by eexists.
  - intros Hin.
    assert (ty ∈ object_prototype_names) as Hp.
    { repeat (apply elem_of_cons in Hin as [->|Hin]);
        [..|by apply elem_of_nil in Hin];
        apply (bool_decide_unpack _); by vm_compute. }
    rewrite (td_update_inherited renderers t idx c console ty Hty
               (Hnone Hp) Hp).
    unfold inherited_render. by rewrite bool_decide_eq_true_2.
  - intros Hp Hn.
    rewrite (td_update_inherited renderers t idx c console ty Hty
               (Hnone Hp) Hp).
    unfold inherited_render. by rewrite bool_decide_eq_false_2.
  - intros Hn Hp. apply td_update_unregistered; [done| |done].
    rewrite renderers_lookup.
    rewrite !not_elem_of_cons in Hn. repeat case_decide; tauto.
Qed.

Lemma render_outcome_by_type_witness :
  td_type (Some sample_table) 1 = Ok "progress"
  ∧ ∃ shown,
      td_update renderers (Some sample_table) 1 (new_td (Some "30")) []
      = Ok (with_content (new_td (Some "30")) shown, []).
Proof.
  split; [reflexivity|].
  apply (proj1 (render_outcome_by_type (Some sample_table) 1
                  (new_td (Some "30")) [] "progress" eq_refl)).
  apply (bool_decide_unpack _). vm_compute. exact I.
Defined.

Lemma builtin_renderer_reads_attributes f ty c shown h :
  renderers !! ty = Some f → f (with_content c shown) h = f c h.
Proof.
  rewrite renderers_lookup.
  repeat case_decide; intros [= <-]; reflexivity.
Qed.

(** X20. With the built-in renderers a render depends on the attributes of
    the cell only: rendering a cell that has just been rendered leaves it as
    it is, so that a cell the pass touches without need is not changed. *)
Theorem rendering_twice_changes_nothing :
  ∀ (t : option table) (idx : nat) (c c' : td)
    (k1 k1' k2 : list (string * string)),
    td_update renderers t idx c k1 = Ok (c', k1') →
    ∃ k2', td_update renderers t idx c' k2 = Ok (c', k2').
Proof.
  intros t idx c c' k1 k1' k2 Hup.
  assert (∃ ty, td_type t idx = Ok ty) as [ty Hty].
  { unfold td_update in Hup. destruct (td_type t idx) as [ty|]; [|done].
    by exists ty. }
  destruct (renderers !! ty) as [f|] eqn:Hf.
  - destruct (td_update_registered renderers t idx c k1 ty f Hty Hf)
      as (h & Hh & Hc).
    rewrite Hc in Hup. injection Hup as <- <-.
    destruct (td_update_registered renderers t idx
                (with_content c (f c (Some h))) k2 ty f Hty Hf)
      as (h' & Hh' & ->).
    rewrite Hh in Hh'. injection Hh' as <-.
    exists k2. rewrite (builtin_renderer_reads_attributes f ty) by done.
    done.
  - destruct (decide (ty ∈ object_prototype_names)) as [Hp|Hp].
    + rewrite (td_update_inherited renderers t idx c k1 ty Hty Hf Hp)
        in Hup.
      rewrite (td_update_inherited renderers t idx c' k2 ty Hty Hf Hp).
      destruct (inherited_render ty); [|done].
      injection Hup as <- <-. by exists k2.
    + rewrite (td_update_unregistered renderers t idx c k1 ty Hty Hf Hp)
        in Hup.
      injection Hup as <- <-.
      rewrite (td_update_unregistered renderers t idx _ k2 ty Hty Hf Hp).
      by eexists.
Qed.

Lemma rendering_twice_changes_nothing_witness :
  td_update renderers (Some sample_table) 2 (new_td (Some "1")) []
  = Ok (with_content (new_td (Some "1")) (CText check_mark), [])
  ∧ ∃ k2', td_update renderers (Some sample_table) 2
             (with_content (new_td (Some "1")) (CText check_mark)) []
           = Ok (with_content (new_td (Some "1")) (CText check_mark), k2').
Proof.
  split; [reflexivity|].
  exact (rendering_twice_changes_nothing (Some sample_table) 2
           (new_td (Some "1")) _ [] [] [] eq_refl).
Defined.

Lemma registry_get_insert_ne {H} (reg : gmap string H) name other f :
  other ≠ name →
  registry_get (<[other := f]> reg) name = registry_get reg name.
Proof. intros Hne. unfold registry_get. by rewrite lookup_insert_ne. Qed.

Lemma registry_get_delete_ne {H} (reg : gmap string H) name other :
  other ≠ name →
  registry_get (delete other reg) name = registry_get reg name.
Proof. intros Hne. unfold registry_get. by rewrite lookup_delete_ne. Qed.

(** X21. Registration under a name other than [__proto__] takes effect at
    the next render, and the last registration for a name wins: after
    [add_renderer(ty, f)] and then [add_renderer(ty, g)], a cell of type
    [ty] shows what [g] produces. After [remove_renderer(ty)] the cell is
    back to what its type finds without an own property, also for a
    built-in type: the member of [Object.prototype] of that name if there
    is one, which is called and leaves the cell alone or throws, and
    otherwise the raw value with a warning. Cells of the other types render
    as before. *)
Theorem registration_takes_effect :
  ∀ (reg : gmap string renderer) (f g : renderer) (t : option table)
    (idx : nat) (c : td) (console : list (string * string))
    (ty other : string),
    td_type t idx = Ok ty → other ≠ ty →
    ty ≠ "__proto__" → other ≠ "__proto__" →
    ∃ reg1 reg2 reg3,
      add_handler ty f reg = Some reg1
      ∧ add_handler ty g reg1 = Some reg2
      ∧ add_handler other f reg = Some reg3
      ∧ (∃ h, td_header t idx = Ok (Some h)
              ∧ td_update reg2 t idx c console
                = Ok (with_content c (g c (Some h)), console))
      ∧ td_update (remove_handler ty reg1) t idx c console
        = (if bool_decide (ty ∈ object_prototype_names)
           then _ ← inherited_render ty; Ok (c, console)
           else Ok (with_content c (CText (default "" (td_value c))),
                    console ++ [missing_renderer_warning ty]))
      ∧ td_update reg3 t idx c console = td_update reg t idx c console
      ∧ td_update (remove_handler other reg) t idx c console
        = td_update reg t idx c console.
Proof.
  intros reg f g t idx c console ty other Hty Hne Hp1 Hp2.
  unfold add_handler, remove_handler.
  exists (<[ty := f]> reg), (<[ty := g]> (<[ty := f]> reg)),
    (<[other := f]> reg).
  rewrite !decide_False by done.
  split; [done|]. split; [done|]. split; [done|].
  split; [|split; [|split]].
  - apply (td_update_registered _ t idx c console ty g Hty).
    apply lookup_insert_eq.
  - case_bool_decide as Hin.
    + apply td_update_inherited; [done|apply lookup_delete_eq|done].
    + apply td_update_unregistered; [done|apply lookup_delete_eq|done].
  - unfold td_update. rewrite Hty. unfold mbind at 1 3, result_bind at 1 3.
    by rewrite registry_get_insert_ne.
  - unfold td_update. rewrite Hty. unfold mbind at 1 3, result_bind at 1 3.
    by rewrite registry_get_delete_ne.
Qed.

Lemma registration_takes_effect_witness :
  td_type (Some sample_table) 2 = Ok "check" ∧ "text" ≠ "check"
  ∧ "check" ≠ "__proto__" ∧ "text" ≠ "__proto__"
  ∧ ∃ reg1,
      add_handler "check" render_text renderers = Some reg1
      ∧ td_update (remove_handler "check" reg1)
          (Some sample_table) 2 (new_td (Some "1")) []
        = Ok (with_content (new_td (Some "1")) (CText "1"),
              [missing_renderer_warning "check"]).
Proof.
  assert (Hne : "text" ≠ "check") by discriminate.
  assert (Hp1 : "check" ≠ "__proto__") by discriminate.
  assert (Hp2 : "text" ≠ "__proto__") by discriminate.
  split; [reflexivity|]. split; [exact Hne|]. split; [exact Hp1|].
  split; [exact Hp2|].
  destruct (registration_takes_effect renderers render_text render_img
              (Some sample_table) 2 (new_td (Some "1")) [] "check" "text"
              eq_refl Hne Hp1 Hp2)
    as (reg1 & reg2 & reg3 & H1 & _ & _ & _ & Hrem & _).
  exists reg1. split; [exact H1|]. exact Hrem.
Defined.

(** A renderer registered under the name of an inherited member shadows it;
    once it is removed, the inherited member is found again, and the cell
    is rendered neither by a renderer nor by the fallback. *)
Example removal_uncovers_inherited_member :
  let t := Some {| tHead := Some [[ren_th (Some "toString") None]];
                   tBodies := [] |} in
  let c := new_td (Some "raw") in
  (reg ← add_handler "toString" render_text renderers;
   Some (td_update reg t 0 c []))
  = Some (Ok (with_content c (CText "raw"), []))
  ∧ (reg ← add_handler "toString" render_text renderers;
     Some (td_update (remove_handler "toString" reg) t 0 c []))
    = Some (Ok (c, []))
  ∧ add_handler "__proto__" render_text renderers = None.
Proof. vm_compute. repeat split. Qed.

(** ** Attribute writes on a body cell, continued *)

Lemma td_writes_after_first pos vs c0 p :
  pos ∈ p →
  fold_left (td_write pos) vs (c0, p)
  = ({| td_value := match last vs with
                    | Some w => Some w
                    | None => td_value c0
                    end;
        td_max := td_max c0; td_content := td_content c0 |}, p).
Proof.
  intros Hin. revert c0. induction vs as [|w vs IH]; intros c0.
  - by destruct c0.
  - cbn [fold_left]. unfold td_write at 2. cbn [fst snd].
    unfold cell_update. rewrite bool_decide_eq_true_2 by done.
    rewrite IH, last_cons. simpl. by destruct (last vs).
Qed.

(** X22. Writes of [value] to one cell are coalesced: after any number of
    writes, one at least, the cell holds the last value written, its other
    attribute and its content are untouched until the render runs, and the
    store of pending renders is what a single write leaves, with a pending
    render for the cell. *)
Theorem value_writes_are_coalesced :
  ∀ (pos : nat * nat) (c : td) (pending : list (nat * nat)) (v : string)
    (vs : list string),
    let st := fold_left (td_write pos) (v :: vs) (c, pending) in
    td_value (fst st) = Some (default v (last vs))
    ∧ td_max (fst st) = td_max c
    ∧ td_content (fst st) = td_content c
    ∧ snd st = cell_update pos pending
    ∧ pos ∈ snd st.
Proof.
  intros pos c pending v vs. cbn zeta.
  assert (Hone : pos ∈ cell_update pos pending).
  { unfold cell_update. case_bool_decide; [done|].
    apply elem_of_app. right. by left. }
  assert (Hst : fold_left (td_write pos) (v :: vs) (c, pending)
                = ({| td_value := Some (default v (last vs));
                      td_max := td_max c; td_content := td_content c |},
                   cell_update pos pending)).
  { cbn [fold_left]. unfold td_write at 2. cbn [fst snd].
    rewrite td_writes_after_first by done. simpl. by destruct (last vs). }
  rewrite Hst. done.
Qed.

(** ** The order of the queue, continued *)

(** X23. For calls with integer starts, the key that [update] compares is
    the decimal concatenation read as a number, that is [row_start] shifted
    left by the number of decimal digits of [column_start], plus
    [column_start]; the queue is always in ascending order of that key. *)
Theorem queue_is_ordered_by_decimal_concatenation :
  ∀ (calls : list region),
    Forall integer_starts calls →
    let q := update_regions (updates calls new_scheduler) in
    ascending weight_leb q = true
    ∧ Forall (λ g, ∃ a b,
                row_start g = Fin a ∧ column_start g = Fin b
                ∧ region_weight g
                  = Some (a * 10 ^ Unsigned.usize (Nat.to_uint b) + b)) q.
Proof.
  intros calls Hint q. split.
  - apply updates_ascending_weight.
    eapply Forall_impl; [exact Hint|]. apply integer_starts_numeric.
  - eapply Forall_impl; [by apply updates_regions_Forall|].
    intros g (a & b & Ha & Hb). exists a, b. split; [done|]. split; [done|].
    unfold region_weight. by rewrite Ha, Hb, weight_finite.
Qed.

Lemma queue_is_ordered_by_decimal_concatenation_witness :
  Forall integer_starts [open_region 1 10; open_region 2 0]
  ∧ let q := update_regions (updates [open_region 1 10; open_region 2 0]
                               new_scheduler) in
    ascending weight_leb q = true
    ∧ Forall (λ g, ∃ a b,
                row_start g = Fin a ∧ column_start g = Fin b
                ∧ region_weight g
                  = Some (a * 10 ^ Unsigned.usize (Nat.to_uint b) + b)) q.
Proof.
  assert (H : Forall integer_starts [open_region 1 10; open_region 2 0]).
  { repeat constructor; eexists _, _; split; reflexivity. }
  split; [exact H|].
  exact (queue_is_ordered_by_decimal_concatenation _ H).
Defined.

(** X24. As long as every call has integer starts and a column start below
    10, the queue is in ascending order of the composite key ([row_start],
    then [column_start]), and the pass reaches every existing cell that lies
    in the rectangle of a pending region. *)
Theorem single_digit_columns_are_served_in_full :
  ∀ (A : Type) (calls : list region) (rows : list (list A)),
    Forall single_digit_column calls →
    ascending key_leb (update_regions (updates calls new_scheduler)) = true
    ∧ ∀ g r c,
        g ∈ calls → in_rectangle r c g = true → cell_exists rows r c →
        (r, c) ∈ snd (table_update rows (updates calls new_scheduler)).
Proof.
  intros A calls rows Hc. split.
  - by apply updates_ascending_key_single_digit.
  - intros g r c Hg Hrect (cells & Hrow & Hcol).
    eapply pass_reaches_cells_single_digit; eauto.
    apply updates_regions_elem. by left.
Qed.

Lemma single_digit_columns_are_served_in_full_witness :
  Forall single_digit_column [open_region 12 3; open_region 2 9]
  ∧ ascending key_leb
      (update_regions (updates [open_region 12 3; open_region 2 9]
                         new_scheduler)) = true
  ∧ (2, 9) ∈ snd (table_update (grid 3 10)
                    (updates [open_region 12 3; open_region 2 9]
                       new_scheduler)).
Proof.
  assert (H : Forall single_digit_column [open_region 12 3; open_region 2 9]).
  { repeat constructor; eexists _, _; (split; [reflexivity|]);
      (split; [reflexivity|lia]). }
  assert (Hin : open_region 2 9 ∈ [open_region 12 3; open_region 2 9]).
  { right. left. }
  assert (Hcell : cell_exists (grid 3 10) 2 9).
  { eexists. split; [reflexivity|]. simpl. lia. }
  destruct (single_digit_columns_are_served_in_full unit _ (grid 3 10) H)
    as [H1 H2].
  split; [exact H|]. split; [exact H1|].
  exact (H2 (open_region 2 9) 2 9 Hin eq_refl Hcell).
Defined.

(** X25. The pass never calls [update()] on a cell that does not exist, nor
    on a cell outside the column span of every pending region: a touched
    cell lies in the columns of a pending region whose first row is at or
    above the cell's row. *)
Theorem touched_cell_is_in_a_column_span :
  ∀ (A : Type) (rows : list (list A)) (s : scheduler) (r c : nat),
    (r, c) ∈ snd (table_update rows s) →
    cell_exists rows r c
    ∧ ∃ g, g ∈ update_regions s
           ∧ num_leb (row_start g) (Fin r) = true
           ∧ num_leb (column_start g) (Fin c) = true
           ∧ num_ltb (Fin c) (column_end g) = true.
Proof.
  intros A rows s r c Hin. cbn [table_update snd] in Hin.
  apply scan_rows_sound in Hin as [Hcell Hg].
  by rewrite Nat.sub_0_r in Hcell.
Qed.

Lemma touched_cell_is_in_a_column_span_witness :
  (0, 1) ∈ snd (table_update (grid 1 2)
                  (updates [open_region 0 1] new_scheduler))
  ∧ cell_exists (grid 1 2) 0 1
  ∧ ∃ g, g ∈ update_regions (updates [open_region 0 1] new_scheduler)
         ∧ num_leb (row_start g) (Fin 0) = true
         ∧ num_leb (column_start g) (Fin 1) = true
         ∧ num_ltb (Fin 1) (column_end g) = true.
Proof.
  assert (H : (0, 1) ∈ snd (table_update (grid 1 2)
                              (updates [open_region 0 1] new_scheduler))).
  { apply (bool_decide_unpack _). vm_compute. exact I. }
  split; [exact H|].
  exact (touched_cell_is_in_a_column_span unit (grid 1 2) _ 0 1 H).
Defined.

(** ** The round trip, for any registries *)

(** X26. Under a header row, on a table with at most one body, for rows
    that are not longer than the header row, and where no column type names
    a member of [Object.prototype] that a registry does not override,
    [to_array()] right after [from(arr)] returns one row per entry of [arr]
    and, for every cell, what the exporter registered for the type of the
    column makes of the imported cell, or the imported string itself where
    the type has no exporter. The cell at column [idx] is imported under
    the type of the cell [idx] of the header row and exported under the
    type of its child [idx]. *)
Theorem round_trip_exports_the_imported_cells :
  ∀ (imp : gmap string importer) (exp : gmap string exporter)
    (arr : list jsrow) (t : table) (children : list th)
    (rows : list (list th)),
    tHead t = Some (children :: rows) → length (tBodies t) ≤ 1 →
    Forall (λ h, own_or_absent imp (registry_key (th_type h)))
      (header_of t) →
    Forall (λ h, own_or_absent exp (default "text" (th_type h))) children →
    Forall (row_fits (length children)) arr →
    round_trip imp exp arr t
    = Ok (map (λ row, imap (exported_as exp children)
                        (imported_row imp (map th_name (header_of t))
                           (map th_type (header_of t)) row)) arr).
Proof. intros. by apply round_trip_within_header with (rows := rows). Qed.

Lemma round_trip_exports_the_imported_cells_witness :
  tHead sample_table = Some (header_children sample_table :: [])
  ∧ length (tBodies sample_table) ≤ 1
  ∧ Forall (λ h, own_or_absent importers (registry_key (th_type h)))
      (header_of sample_table)
  ∧ Forall (λ h, own_or_absent exporters (default "text" (th_type h)))
      (header_children sample_table)
  ∧ Forall (row_fits (length (header_children sample_table)))
      [ObjectRow {[ "done" := JBool true ]} object_literal_inherited]
  ∧ round_trip importers exporters
      [ObjectRow {[ "done" := JBool true ]} object_literal_inherited]
      sample_table
    = Ok [[EValue (Some ""); EQuot (Some "0") MaxDefault; EBool true;
           EValue (Some ""); EValue None]].
Proof.
  assert (H1 : length (tBodies sample_table) ≤ 1) by (simpl; lia).
  assert (H2 : Forall (λ h, own_or_absent importers
                              (registry_key (th_type h)))
                 (header_of sample_table)).
  { apply (bool_decide_unpack _). vm_compute. exact I. }
  assert (H3 : Forall (λ h, own_or_absent exporters
                              (default "text" (th_type h)))
                 (header_children sample_table)).
  { apply (bool_decide_unpack _). vm_compute. exact I. }
  assert (H4 : Forall (row_fits (length (header_children sample_table)))
                 [ObjectRow {[ "done" := JBool true ]}
                    object_literal_inherited]).
  { repeat constructor. }
  split; [reflexivity|]. split; [exact H1|]. split; [exact H2|].
  split; [exact H3|]. split; [exact H4|].
  rewrite (round_trip_exports_the_imported_cells importers exporters
             [ObjectRow {[ "done" := JBool true ]} object_literal_inherited]
             sample_table _ [] eq_refl H1 H2 H3 H4).
  vm_compute. reflexivity.
Defined.
